(** * streamlit_app.py: the retrieval pipeline

    A shallow embedding of the file-aware chatbot of [streamlit_app.py]:
    extraction ([parse_uploaded_file]), chunking ([chunk_text]), indexing
    ([index_uploaded_files] and the uploader handler), keyword retrieval
    ([simple_retrieve]) and answer composition ([build_answer_from_matches]).

    Python values are modelled as follows.
    - [str] is a list of Unicode code points ([N]); [len] is its length as an
      integer ([Z]).
    - [bytes] is a list of [Byte.byte].
    - [int] is [Z].
    - a call that may raise returns a [result]; [try ... except Exception]
      is [try_except].
    - [st.session_state] is a record threaded through the handlers.
    - the Unicode tables behind [str.isspace]/[\s], [\w] and [str.lower] are
      not part of the repository: they are parameters of the development
      (Section variables), and an ASCII instance is used for the examples. *)

From Stdlib Require Import ZArith NArith List Lia Bool Ascii String Sorted.
From Stdlib.Strings Require Import Byte.
From Stdlib Require DecimalString.
From stdpp Require Import gmap.
Import ListNotations.

Set Default Proof Using "Type".

(** ** Python values *)

Abbreviation char := N (only parsing).
Abbreviation str := (list N) (only parsing).
Abbreviation bytes := (list byte) (only parsing).

(** A string literal of the source, as code points. *)
Definition s2l (s : string) : str :=
  map N_of_ascii (list_ascii_of_string s).

(** [len(s)] *)
Definition len {A} (s : list A) : Z := Z.of_nat (length s).

(** Truth value of a sequence: [if s:] *)
Definition truthy {A} (s : list A) : bool :=
  match s with [] => false | _ :: _ => true end.

Definition NL : char := 10%N.
Definition SP : char := 32%N.
Definition BACKTICK : char := 96%N.

(** [sep.join(parts)] *)
Fixpoint join (sep : str) (parts : list str) : str :=
  match parts with
  | [] => []
  | [p] => p
  | p :: rest => p ++ sep ++ join sep rest
  end.

(** [s.endswith(suffix)] *)
Definition endswith (s suffix : str) : bool :=
  bool_decide (skipn (length s - length suffix) s = suffix).

(** Calls that may raise. *)
Inductive result (A : Type) : Type :=
| Ok (a : A)
| Raise.
Arguments Ok {A} a.
Arguments Raise {A}.

#[export] Instance result_ret : MRet result := fun _ a => Ok a.

#[export] Instance result_bind : MBind result := fun _ _ k r =>
  match r with Ok a => k a | Raise => Raise end.

(** [try: body  except Exception: handler] *)
Definition try_except {A} (body : result A) (handler : result A) : result A :=
  match body with Ok a => Ok a | Raise => handler end.

(** [sum(xs)]: starts from 0 and adds from the left. *)
Definition sum (xs : list Z) : Z := fold_left Z.add xs 0%Z.

(** [words.count(t)] *)
Fixpoint list_count (words : list str) (t : str) : Z :=
  match words with
  | [] => 0
  | w :: words' => ((if bool_decide (w = t) then 1 else 0) + list_count words' t)%Z
  end.

(** [enumerate(xs)], counting from [i]. *)
Fixpoint enumerate_from {A} (i : Z) (xs : list A) : list (Z * A) :=
  match xs with
  | [] => []
  | x :: xs' => (i, x) :: enumerate_from (i + 1)%Z xs'
  end.

Definition enumerate {A} (xs : list A) : list (Z * A) := enumerate_from 0%Z xs.

(** [xs[:k]]: a negative [k] counts from the end. *)
Definition slice_to {A} (k : Z) (xs : list A) : list A :=
  if (k <? 0)%Z then firstn (Z.to_nat (len xs + k)) xs
  else firstn (Z.to_nat k) xs.

(** [xs.sort(key=key, reverse=True)]. The sort of the runtime is stable and
    stays so under [reverse=True]: elements with equal keys keep their order.
    It is modelled by the insertion sort with that behaviour. *)
Fixpoint insert_desc {A} (key : A -> Z) (x : A) (sorted : list A) : list A :=
  match sorted with
  | [] => [x]
  | y :: sorted' =>
      if (key x <? key y)%Z then y :: insert_desc key x sorted'
      else x :: sorted
  end.

Fixpoint sort_reverse {A} (key : A -> Z) (xs : list A) : list A :=
  match xs with
  | [] => []
  | x :: xs' => insert_desc key x (sort_reverse key xs')
  end.

(** Non-increasing keys. *)
Definition descending {A} (key : A -> Z) : list A -> Prop :=
  StronglySorted (fun a b => (key b <= key a)%Z).

(** [str(n)] for an integer. *)
Definition str_of_int (n : Z) : str :=
  s2l (DecimalString.NilZero.string_of_int (Z.to_int n)).

(** ** Codecs of the runtime *)

Definition is_continuation (b : N) : bool := ((128 <=? b) && (b <=? 191))%N.

(** [data.decode("utf-8")], strict: overlong forms, surrogates and code
    points above U+10FFFF raise. *)
Fixpoint utf8_decode (bs : list N) : result str :=
  match bs with
  | [] => Ok []
  | b0 :: r0 =>
      if (b0 <? 128)%N then rest ← utf8_decode r0; Ok (b0 :: rest)
      else if ((194 <=? b0) && (b0 <=? 223))%N then
        match r0 with
        | b1 :: r1 =>
            if is_continuation b1
            then rest ← utf8_decode r1; Ok (((b0 - 192) * 64 + (b1 - 128))%N :: rest)
            else Raise
        | _ => Raise
        end
      else if ((224 <=? b0) && (b0 <=? 239))%N then
        match r0 with
        | b1 :: b2 :: r2 =>
            let cp := ((b0 - 224) * 4096 + (b1 - 128) * 64 + (b2 - 128))%N in
            if is_continuation b1 && is_continuation b2
               && (2048 <=? cp)%N && negb ((55296 <=? cp) && (cp <=? 57343))%N
            then rest ← utf8_decode r2; Ok (cp :: rest)
            else Raise
        | _ => Raise
        end
      else if ((240 <=? b0) && (b0 <=? 244))%N then
        match r0 with
        | b1 :: b2 :: b3 :: r3 =>
            let cp := ((b0 - 240) * 262144 + (b1 - 128) * 4096
                       + (b2 - 128) * 64 + (b3 - 128))%N in
            if is_continuation b1 && is_continuation b2 && is_continuation b3
               && (65536 <=? cp)%N && (cp <=? 1114111)%N
            then rest ← utf8_decode r3; Ok (cp :: rest)
            else Raise
        | _ => Raise
        end
      else Raise
  end.

Definition decode_utf8 (data : bytes) : result str :=
  utf8_decode (map Byte.to_N data).

(** [data.decode("latin-1")]: every byte is its own code point. *)
Definition decode_latin1 (data : bytes) : result str :=
  Ok (map Byte.to_N data).

Definition hex_digit (n : N) : char :=
  (if n <? 10 then 48 + n else 87 + n)%N.

Definition repr_byte (quote : char) (b : N) : str :=
  (if (b =? quote) || (b =? 92) then [92; b]
   else if b =? 9 then [92; 116]
   else if b =? 10 then [92; 110]
   else if b =? 13 then [92; 114]
   else if (b <? 32) || (127 <=? b) then [92; 120; hex_digit (b / 16); hex_digit (b mod 16)]
   else [b])%N.

(** [str(data)] for a bytes object: its [repr], [b'...'], with double quotes
    when the data has a single quote and no double quote. *)
Definition bytes_repr (data : bytes) : str :=
  let bs := map Byte.to_N data in
  let quote : char :=
    if existsb (N.eqb 39) bs && negb (existsb (N.eqb 34) bs) then 34%N else 39%N in
  [98%N; quote] ++ flat_map (repr_byte quote) bs ++ [quote].

Definition str_of_bytes (data : bytes) : result str := Ok (bytes_repr data).

(** ** Records of the application *)

(** An uploaded file as the uploader widget hands it over. *)
Module UploadedFile.
Record t : Type := { name : str; read : bytes }.
End UploadedFile.

(** An entry of [st.session_state.uploaded_files]. *)
Record document : Type := { name : str; text : str; chunks : list str }.

(** An entry of [st.session_state.messages]. *)
Inductive role : Type := user | assistant.
Record message : Type := { msg_role : role; content : str }.

Record session_state : Type :=
  { messages : list message; uploaded_files : list document }.

(** State before the first run of the script. *)
Definition initial_state : session_state :=
  {| messages := []; uploaded_files := [] |}.

(** A result of [simple_retrieve]. *)
Record Match : Type := { file : str; chunk : str; score : Z; index : Z }.

(** What the retriever touches, in order. *)
Inductive event : Type :=
| VisitDocument (doc : str)
| ScanChunk (doc : str) (i : Z).

(** State of the retrieval loops. *)
Record scan : Type := { results : list Match; trace : list event }.

(** Content of a file's expander. *)
Inductive expander : Type :=
| NoPreview            (* "(Could not extract a preview for this file.)" *)
| TextArea (preview : str).

(** ** An ASCII instance of the character tables

    On code points below 128 these agree with Python; they are used for the
    concrete examples only. *)

Definition ascii_isspace (c : char) : bool :=
  ((9 <=? c) && (c <=? 13) || (28 <=? c) && (c <=? 32))%N.

Definition ascii_isword (c : char) : bool :=
  ((48 <=? c) && (c <=? 57) || (65 <=? c) && (c <=? 90)
   || (c =? 95) || (97 <=? c) && (c <=? 122))%N.

Definition ascii_lower_char (c : char) : char :=
  (if (65 <=? c) && (c <=? 90) then c + 32 else c)%N.

Definition ascii_lower (s : str) : str := map ascii_lower_char s.

(** ** Data of the examples *)

(** A bytes literal. *)
Definition b2l (s : string) : bytes :=
  map byte_of_ascii (list_ascii_of_string s).

Definition a_txt : UploadedFile.t :=
  {| UploadedFile.name := s2l "a.txt"; UploadedFile.read := b2l "cat" |}.

Definition b_txt : UploadedFile.t :=
  {| UploadedFile.name := s2l "b.txt"; UploadedFile.read := b2l "a cat" |}.

Definition fox_txt : UploadedFile.t :=
  {| UploadedFile.name := s2l "fox.txt";
     UploadedFile.read := b2l "The quick brown fox. The fox jumps." |}.

(** The corpus after [a.txt] and [b.txt] were uploaded together. *)
Definition two_cats : session_state :=
  {| messages := [];
     uploaded_files :=
       [{| name := s2l "a.txt"; text := s2l "cat"; chunks := [s2l "cat"] |};
        {| name := s2l "b.txt"; text := s2l "a cat"; chunks := [s2l "a cat"] |}] |}.

(** A corpus with the chunk of the scoring example. *)
Definition pets : session_state :=
  {| messages := [];
     uploaded_files :=
       [{| name := s2l "pets.txt"; text := s2l "cat cat dog";
           chunks := [s2l "cat cat dog"] |}] |}.

(** A corpus for the ranking example: against the query [cat], the chunks
    score 3, 5 and 3 in the order of the traversal. *)
Definition ranking : session_state :=
  {| messages := [];
     uploaded_files :=
       [{| name := s2l "one.txt"; text := [];
           chunks := [s2l "cat cat cat B"; s2l "cat cat cat cat cat A"] |};
        {| name := s2l "two.txt"; text := [];
           chunks := [s2l "no match"; s2l "cat cat cat C"] |}] |}.

Section Pipeline.

(** The character tables of the Python runtime. *)
Variable isspace : char -> bool.   (* str.isspace, regex \s *)
Variable isword : char -> bool.    (* regex \w *)
Variable lower : str -> str.       (* str.lower *)

(** ** String primitives *)

Fixpoint lstrip (s : str) : str :=
  match s with
  | [] => []
  | c :: s' => if isspace c then lstrip s' else s
  end.

Definition rstrip (s : str) : str := rev (lstrip (rev s)).

(** [s.strip()] *)
Definition strip (s : str) : str := rstrip (lstrip s).

(** [re.split(r"\n{1,}", text)]: [insep] holds while the scan is inside a
    run of newlines, [cur] is the piece read so far (reversed). *)
Fixpoint split_newlines_from (insep : bool) (cur : str) (s : str) : list str :=
  match s with
  | [] => [rev cur]
  | c :: s' =>
      if (c =? NL)%N then
        if insep then split_newlines_from true [] s'
        else rev cur :: split_newlines_from true [] s'
      else split_newlines_from false (c :: cur) s'
  end.

Definition re_split_newlines (text : str) : list str :=
  split_newlines_from false [] text.

(** The class [[.!?]]. *)
Definition is_terminator (c : char) : bool :=
  ((c =? 46) || (c =? 33) || (c =? 63))%N.

(** [re.split(r"(?<=[.!?])\s+", p)]. The scanner is either inside a
    separator (a run of whitespace that started after a terminator) or
    outside, remembering whether the previous character is a terminator. *)
Inductive sent_state : Type :=
| InSep
| Outside (after_terminator : bool).

Fixpoint split_sentences_from (st : sent_state) (cur : str) (s : str) : list str :=
  match s with
  | [] => [rev cur]
  | c :: s' =>
      match st with
      | InSep =>
          if isspace c then split_sentences_from InSep [] s'
          else split_sentences_from (Outside (is_terminator c)) [c] s'
      | Outside after =>
          if after && isspace c
          then rev cur :: split_sentences_from InSep [] s'
          else split_sentences_from (Outside (is_terminator c)) (c :: cur) s'
      end
  end.

Definition re_split_sentences (p : str) : list str :=
  split_sentences_from (Outside false) [] p.

(** ** Chunker *)

(** [chunks.append(x.strip())] guarded by [if x:] *)
Definition flush (chunks : list str) (x : str) : list str :=
  if truthy x then chunks ++ [strip x] else chunks.

(** Body of [for s in sentences], on the state [(chunks, buf)]. *)
Definition add_sentence (max_chars : Z) (st : list str * str) (s : str)
  : list str * str :=
  let '(chunks, buf) := st in
  if (len buf + len s + 1 >? max_chars)%Z then (flush chunks buf, s)
  else (chunks, if truthy buf then buf ++ [SP] ++ s else s).

(** Body of [for p in paragraphs], on the state [(chunks, current)]. *)
Definition add_paragraph (max_chars : Z) (st : list str * str) (p0 : str)
  : list str * str :=
  let '(chunks, current) := st in
  let p := strip p0 in
  if negb (truthy p) then st
  else if (len current + len p + 1 >? max_chars)%Z then
    let chunks := flush chunks current in
    if (len p >? max_chars)%Z then
      let sentences := re_split_sentences p in
      let '(chunks, buf) := fold_left (add_sentence max_chars) sentences (chunks, []) in
      (flush chunks buf, [])
    else (chunks, p)
  else (chunks, if truthy current then current ++ [NL] ++ p else p).

Definition chunk_text (text : str) (max_chars : Z) : list str :=
  if negb (truthy text) then []
  else
    let paragraphs := re_split_newlines text in
    let '(chunks, current) := fold_left (add_paragraph max_chars) paragraphs ([], []) in
    flush chunks current.

Definition default_max_chars : Z := 1200.

(** ** Word scanning *)

(** A completed run of word characters, if any. *)
Definition emit (cur : str) : list str :=
  if truthy cur then [rev cur] else [].

(** [re.findall(r"\w+", s)]: [cur] is the run of word characters read so
    far (reversed). *)
Fixpoint findall_word_from (cur : str) (s : str) : list str :=
  match s with
  | [] => emit cur
  | c :: s' =>
      if isword c then findall_word_from (c :: cur) s'
      else emit cur ++ findall_word_from [] s'
  end.

Definition re_findall_word (s : str) : list str := findall_word_from [] s.

(** [re.sub(r"\w+", repl, s)] *)
Fixpoint sub_word_from (repl : str -> str) (cur : str) (s : str) : str :=
  match s with
  | [] => concat (map repl (emit cur))
  | c :: s' =>
      if isword c then sub_word_from repl (c :: cur) s'
      else concat (map repl (emit cur)) ++ c :: sub_word_from repl [] s'
  end.

Definition re_sub_word (repl : str -> str) (s : str) : str :=
  sub_word_from repl [] s.

(** ** Extractor *)

(** The optional backends: [None] when the import failed. A PDF reader gives
    the pages, each with the outcome of [extract_text()] ([None] for a page
    without text); a DOCX reader gives the text of the paragraphs. *)
Variable PyPDF2 : option (bytes -> result (list (result (option str)))).
Variable docx : option (bytes -> result (list str)).

Definition extract_text_from_pdf (file_bytes : bytes) : result str :=
  match PyPDF2 with
  | None => Ok []
  | Some reader =>
      try_except
        (pages ← reader file_bytes;
         texts ← mapM (fun page => t ← page; Ok (default [] t)) pages;
         Ok (join [NL] texts))
        (Ok [])
  end.

Definition extract_text_from_docx (file_bytes : bytes) : result str :=
  match docx with
  | None => Ok []
  | Some reader =>
      try_except
        (paragraphs ← reader file_bytes; Ok (join [NL] paragraphs))
        (Ok [])
  end.

Definition parse_uploaded_file (uploaded_file : UploadedFile.t) : result str :=
  let name := lower (UploadedFile.name uploaded_file) in
  let data := UploadedFile.read uploaded_file in
  text ← (if endswith name (s2l ".pdf") then extract_text_from_pdf data
          else if endswith name (s2l ".docx") then extract_text_from_docx data
          else try_except (decode_utf8 data)
                 (try_except (decode_latin1 data) (Ok [])));
  if negb (truthy text) then try_except (str_of_bytes data) (Ok [])
  else Ok text.

(** ** Indexer *)

(** Body of the loop of [index_uploaded_files]. *)
Definition index_file (st : session_state) (f : UploadedFile.t)
  : result session_state :=
  parsed_text ← parse_uploaded_file f;
  let chunks := chunk_text parsed_text default_max_chars in
  Ok {| messages := messages st;
        uploaded_files := uploaded_files st
          ++ [{| name := UploadedFile.name f; text := parsed_text; chunks := chunks |}] |}.

Fixpoint index_uploaded_files (fs : list UploadedFile.t) (st : session_state)
  : result session_state :=
  match fs with
  | [] => Ok st
  | f :: fs' => st' ← index_file st f; index_uploaded_files fs' st'
  end.

(** The uploader widget and its handler: [uploaded] is what
    [st.file_uploader] returns on this run of the script. *)
Definition on_upload (uploaded : list UploadedFile.t) (st : session_state)
  : result session_state :=
  if truthy uploaded then
    index_uploaded_files uploaded
      {| messages := messages st; uploaded_files := [] |}
  else Ok st.

(** The expander of one file. *)
Definition show_preview (uf : document) : expander :=
  let preview := firstn 3000 (text uf) in
  if negb (truthy preview) then NoPreview else TextArea preview.

(** ** Retriever *)

(** [sum(words.count(t) for t in tokens)] *)
Definition chunk_score (tokens words : list str) : Z :=
  sum (map (fun t => list_count words t) tokens).

Definition visit (e : event) (st : scan) : scan :=
  {| results := results st; trace := trace st ++ [e] |}.

Definition append_result (m : Match) (st : scan) : scan :=
  {| results := results st ++ [m]; trace := trace st |}.

(** Body of [for i, chunk in enumerate(uf["chunks"])]. *)
Definition scan_chunk (tokens : list str) (doc : str) (st : scan) (ic : Z * str)
  : scan :=
  let '(i, chunk) := ic in
  let st := visit (ScanChunk doc i) st in
  let words := re_findall_word (lower chunk) in
  if negb (truthy words) then st
  else
    let score := chunk_score tokens words in
    if (score >? 0)%Z
    then append_result {| file := doc; chunk := chunk; score := score; index := i |} st
    else st.

(** Body of [for uf in st.session_state.uploaded_files]. *)
Definition scan_document (tokens : list str) (st : scan) (uf : document) : scan :=
  fold_left (scan_chunk tokens (name uf)) (enumerate (chunks uf))
    (visit (VisitDocument (name uf)) st).

(** [simple_retrieve], together with the trace of what it read. *)
Definition simple_retrieve_traced (ss : session_state) (query : str) (top_k : Z)
  : list Match * list event :=
  let tokens := re_findall_word (lower query) in
  if negb (truthy tokens) then ([], [])
  else
    let st := fold_left (scan_document tokens) (uploaded_files ss)
                {| results := []; trace := [] |} in
    (slice_to top_k (sort_reverse score (results st)), trace st).

Definition simple_retrieve (ss : session_state) (query : str) (top_k : Z)
  : list Match :=
  fst (simple_retrieve_traced ss query top_k).

(** ** Answer composer *)

(** The inner [repl] of [highlight]. *)
Definition repl (qtokens : gset str) (w : str) : str :=
  if bool_decide (lower w ∈ qtokens) then [BACKTICK] ++ w ++ [BACKTICK] else w.

Definition highlight (qtokens : gset str) (text : str) : str :=
  re_sub_word (repl qtokens) text.

(** The snippet of a match, cut at 1200 characters. *)
Definition snippet_of (m : Match) : str :=
  let snippet := chunk m in
  if (len snippet >? 1200)%Z then firstn 1200 snippet ++ s2l "..." else snippet.

(** Body of [for m in matches]: the line added for [m]. *)
Definition match_line (query : str) (m : Match) : str :=
  let snippet := snippet_of m in
  let qtokens : gset str := list_to_set (re_findall_word (lower query)) in
  let snippet_high := highlight qtokens snippet in
  s2l "From " ++ file m ++ s2l " (score=" ++ str_of_int (score m) ++ s2l "):"
    ++ [NL] ++ s2l "> " ++ snippet_high.

Definition no_match_message : str :=
  s2l "I couldn't find any passages in the uploaded files that match your question. Try a different question or upload more files.".

Definition build_answer_from_matches (matches : list Match) (query : str) : str :=
  if negb (truthy matches) then no_match_message
  else
    let lines :=
      [s2l "I searched your uploaded files and found these relevant passages:"]
      ++ map (match_line query) matches
      ++ [[NL] ++ s2l "If you'd like, ask me to summarize these passages, or ask a follow-up that references a file name."] in
    join [NL; NL] lines.

Definition no_files_message : str :=
  s2l "No files have been uploaded. This assistant can only answer based on the files you upload. Upload one or more files (txt, pdf, docx) and ask a question about their contents.".

(** The chat input and its handler. *)
Definition on_prompt (prompt : str) (st : session_state) : session_state :=
  let msgs := messages st ++ [{| msg_role := user; content := prompt |}] in
  let assistant_response :=
    if truthy (uploaded_files st)
    then build_answer_from_matches (simple_retrieve st prompt 5) prompt
    else no_files_message in
  {| messages := msgs ++ [{| msg_role := assistant; content := assistant_response |}];
     uploaded_files := uploaded_files st |}.

(** One run of the script: the uploader, then the chat input if the user
    submitted a prompt. *)
Definition run_script (uploaded : list UploadedFile.t) (prompt : option str)
    (st : session_state) : result session_state :=
  st ← on_upload uploaded st;
  Ok (match prompt with Some q => on_prompt q st | None => st end).

(** ** Notions used by the statements *)

(** The non-whitespace characters of a string, in order. *)
Definition nonspace (s : str) : str :=
  List.filter (fun c => negb (isspace c)) s.

(** The tokens of a query or of a chunk. *)
Definition tokens_of (s : str) : list str := re_findall_word (lower s).

(** Number of occurrences of [t] in [words]. *)
Definition occurrences (t : str) (words : list str) : nat :=
  length (List.filter (fun w => bool_decide (w = t)) words).

(** The keyword-overlap score as the specification words it: the sum, over
    the tokens of the query with repeats, of the occurrences of the token
    among the tokens of the chunk. *)
Definition overlap_score (query chunk : str) : Z :=
  Z.of_nat (list_sum (map (fun t => occurrences t (tokens_of chunk)) (tokens_of query))).

(** All chunks of the corpus, document by document. *)
Definition all_chunks (ss : session_state) : list str :=
  flat_map chunks (uploaded_files ss).

(** The chunks of the corpus with a positive score against [query]. *)
Definition positive_chunks (ss : session_state) (query : str) : list str :=
  List.filter (fun c => (0 <? overlap_score query c)%Z) (all_chunks ss).

(** The matches of a document-by-document, chunk-by-chunk traversal, in the
    order of the traversal. *)
Definition candidate (query : str) (doc : str) (ic : Z * str) : list Match :=
  if (0 <? overlap_score query (snd ic))%Z
  then [{| file := doc; chunk := snd ic;
           score := overlap_score query (snd ic); index := fst ic |}]
  else [].

Definition encounter_order (ss : session_state) (query : str) : list Match :=
  flat_map (fun uf => flat_map (candidate query (name uf)) (enumerate (chunks uf)))
    (uploaded_files ss).

(** The matches of [ms] with score [v], in the order of [ms]. *)
Definition with_score (v : Z) (ms : list Match) : list Match :=
  List.filter (fun m => (score m =? v)%Z) ms.

(** The document stored for an uploaded file. *)
Definition text_of (f : UploadedFile.t) : str :=
  match parse_uploaded_file f with Ok t => t | Raise => [] end.

Definition document_of (f : UploadedFile.t) : document :=
  {| name := UploadedFile.name f;
     text := text_of f;
     chunks := chunk_text (text_of f) default_max_chars |}.

(** The PDF backend is missing, or reading the data or one of its pages
    raises. *)
Definition pdf_fails (data : bytes) : Prop :=
  match PyPDF2 with
  | None => True
  | Some reader =>
      reader data = Raise
      \/ exists pages, reader data = Ok pages /\ In Raise pages
  end.

(** The DOCX backend is missing, or reading the data raises. *)
Definition docx_fails (data : bytes) : Prop :=
  match docx with
  | None => True
  | Some reader => reader data = Raise
  end.

(** States the session can be in: the initial one and those that runs of
    the script lead to. *)
Inductive reachable : session_state -> Prop :=
| reachable_initial : reachable initial_state
| reachable_run st uploaded prompt st' :
    reachable st ->
    run_script uploaded prompt st = Ok st' ->
    reachable st'.

(** Everything a full traversal of the corpus touches. *)
Definition full_scan (ss : session_state) : list event :=
  flat_map (fun uf => VisitDocument (name uf)
                      :: map (fun ic => ScanChunk (name uf) (fst ic))
                           (enumerate (chunks uf)))
    (uploaded_files ss).

(** A text as [re.sub] sees it: word tokens, and the characters between. *)
Inductive segment : Type :=
| Word (w : str)
| Other (c : char).

Fixpoint segments_from (cur : str) (s : str) : list segment :=
  match s with
  | [] => map Word (emit cur)
  | c :: s' =>
      if isword c then segments_from (c :: cur) s'
      else map Word (emit cur) ++ Other c :: segments_from [] s'
  end.

Definition segments (s : str) : list segment := segments_from [] s.

(** A segment in the output, the word tokens going through [mark]. *)
Definition render (mark : str -> str) (seg : segment) : str :=
  match seg with Word w => mark w | Other c => [c] end.

Definition word_segments (segs : list segment) : list str :=
  flat_map (fun seg => match seg with Word w => [w] | Other _ => [] end) segs.

(** A word token between highlight markers. *)
Definition marked (w : str) : str := [BACKTICK] ++ w ++ [BACKTICK].

(** A string has no white space at its start. *)
Definition starts_clean (s : str) : Prop :=
  match s with [] => True | c :: _ => isspace c = false end.

(** ** Invariants of the loops *)

(** What the sentence scanner relies on: the text read so far and the rest
    of the input, taken together, neither start nor end with white space. *)
Definition sent_inv (st : sent_state) (cur s : str) : Prop :=
  match st with
  | InSep => cur = [] /\ starts_clean (rev s)
  | Outside after =>
      starts_clean (rev cur ++ s) /\ starts_clean (rev s ++ cur)
      /\ (after = true -> exists c cur', cur = c :: cur' /\ is_terminator c = true)
  end.

(** A chunk is within the bound, or it is one sentence of [sentences] that
    is itself over the bound. *)
Definition bounded_or_sentence (max_chars : Z) (sentences : list str) (c : str) : Prop :=
  (len c <= max_chars)%Z \/ (In c sentences /\ (max_chars < len c)%Z).

(** The buffer of the sentence loop: empty, within the bound, or exactly
    one sentence. *)
Definition buf_inv (max_chars : Z) (sentences : list str) (buf : str) : Prop :=
  buf = [] \/ (len buf <= max_chars)%Z \/ In buf sentences.

(** What [chunk_text] promises of a chunk of [text]. *)
Definition chunk_ok (text : str) (max_chars : Z) (c : str) : Prop :=
  (len c <= max_chars)%Z
  \/ exists p, In p (re_split_newlines text)
       /\ (max_chars < len (strip p))%Z
       /\ In c (re_split_sentences (strip p))
       /\ (max_chars < len c)%Z.

(** The content held by a loop state: the chunks completed so far, then the
    buffer. *)
Definition held (st : list str * str) : str :=
  nonspace (concat (fst st)) ++ nonspace (snd st).

(** A chunk as the chunker leaves it: not empty, and with no white space at
    either end. *)
Definition trimmed (c : str) : Prop :=
  c <> [] /\ starts_clean c /\ starts_clean (rev c).

(** What the paragraphs still to come can add to [current]: each its length
    and the newline that joins it. *)
Definition budget (paragraphs : list str) : Z :=
  fold_right (fun p acc => (len p + 1 + acc)%Z) 0%Z paragraphs.

(** The state of the paragraph loop while everything read so far fits into
    [current]. *)
Definition fits (max_chars : Z) (todo : list str) (st : list str * str) : Prop :=
  fst st = []
  /\ ((snd st = [] /\ (budget todo <= max_chars + 1)%Z)
      \/ (snd st <> [] /\ (len (snd st) + budget todo <= max_chars)%Z)).

(** A string without its highlight markers. *)
Definition unmarked (s : str) : str :=
  List.filter (fun c => negb (c =? BACKTICK)%N) s.


(** A page of a PDF from which no text comes out. *)
Definition page_without_text (page : result (option str)) : Prop :=
  page = Ok None \/ page = Ok (Some []).

(** ** Assumptions on the character tables *)

Hypothesis isspace_NL : isspace NL = true.
Hypothesis isspace_SP : isspace SP = true.
Hypothesis terminator_not_space :
  forall c, is_terminator c = true -> isspace c = false.
Hypothesis lower_keeps_nonword :
  forall s, Forall (fun c => isword c = false) s ->
            Forall (fun c => isword c = false) (lower s).

(** ** Stripping *)

Lemma len_app {A} (a b : list A) : len (a ++ b) = (len a + len b)%Z.
Proof. unfold len. rewrite length_app. lia. Qed.

Lemma len_cons {A} (x : A) (a : list A) : len (x :: a) = (1 + len a)%Z.
Proof. unfold len. simpl length. lia. Qed.

Lemma len_nonneg {A} (a : list A) : (0 <= len a)%Z.
Proof. unfold len. lia. Qed.

Lemma truthy_false {A} (s : list A) : truthy s = false -> s = [].
Proof. destruct s; [reflexivity | discriminate]. Qed.

Lemma lstrip_length (s : str) : (length (lstrip s) <= length s)%nat.
Proof.
  induction s as [|c s IH]; simpl; [lia|].
  destruct (isspace c); simpl; lia.
Qed.

Lemma strip_len (s : str) : (len (strip s) <= len s)%Z.
Proof.
  unfold strip, rstrip, len. rewrite length_rev.
  pose proof (lstrip_length (rev (lstrip s))) as H1.
  rewrite length_rev in H1.
  pose proof (lstrip_length s). lia.
Qed.

Lemma lstrip_starts_clean (s : str) : starts_clean (lstrip s).
Proof.
  induction s as [|c s IH]; simpl; [exact I|].
  destruct (isspace c) eqn:E; [exact IH | exact E].
Qed.

Lemma lstrip_clean (s : str) : starts_clean s -> lstrip s = s.
Proof.
  destruct s as [|c s]; simpl; [reflexivity|]. intros ->. reflexivity.
Qed.

Lemma lstrip_snoc (s : str) (c : char) :
  isspace c = false -> exists s', lstrip (s ++ [c]) = s' ++ [c].
Proof.
  intros Hc. induction s as [|d s IH]; simpl.
  - rewrite Hc. exists []. reflexivity.
  - destruct (isspace d); [exact IH|]. exists (d :: s). reflexivity.
Qed.

Lemma rstrip_starts_clean (s : str) : starts_clean s -> starts_clean (rstrip s).
Proof.
  destruct s as [|c s]; simpl; intros Hc; [exact I|].
  unfold rstrip. simpl.
  destruct (lstrip_snoc (rev s) c Hc) as [s' ->].
  rewrite rev_app_distr. simpl. exact Hc.
Qed.

Lemma strip_starts_clean (s : str) : starts_clean (strip s).
Proof. apply rstrip_starts_clean, lstrip_starts_clean. Qed.

Lemma strip_ends_clean (s : str) : starts_clean (rev (strip s)).
Proof.
  unfold strip, rstrip. rewrite rev_involutive. apply lstrip_starts_clean.
Qed.

Lemma strip_clean (s : str) :
  starts_clean s -> starts_clean (rev s) -> strip s = s.
Proof.
  intros H1 H2. unfold strip, rstrip.
  rewrite (lstrip_clean s H1), (lstrip_clean (rev s) H2).
  apply rev_involutive.
Qed.

(** ** Sentences of a stripped paragraph *)

Lemma starts_clean_app_l (a b : str) : starts_clean (a ++ b) -> starts_clean a.
Proof. destruct a; simpl; [intros _; exact I | intros H; exact H]. Qed.

Lemma split_sentences_from_clean (s : str) : forall st cur,
  sent_inv st cur s ->
  Forall (fun x => strip x = x) (split_sentences_from st cur s).
Proof using terminator_not_space.
  induction s as [|c s IH]; intros st cur Hinv.
  - simpl. constructor; [|constructor].
    destruct st as [|after]; simpl in Hinv.
    + destruct Hinv as [-> _]. reflexivity.
    + destruct Hinv as (H1 & H2 & _). rewrite app_nil_r in H1.
      apply strip_clean; [exact H1 | rewrite rev_involutive; exact H2].
  - destruct st as [|after]; simpl in *.
    + destruct Hinv as [-> H2].
      destruct (isspace c) eqn:Ec; apply IH; simpl.
      * split; [reflexivity | exact (starts_clean_app_l _ _ H2)].
      * repeat split; [exact Ec | exact H2 |]. intros Ht. eauto.
    + destruct Hinv as (H1 & H2 & H3).
      destruct (after && isspace c) eqn:E.
      * apply andb_prop in E as [-> Ec].
        destruct (H3 eq_refl) as (t & cur' & -> & Ht).
        constructor.
        -- apply strip_clean; [exact (starts_clean_app_l _ _ H1)|].
           rewrite rev_involutive. simpl. auto.
        -- apply IH. simpl. split; [reflexivity|].
           rewrite <- app_assoc in H2. exact (starts_clean_app_l _ _ H2).
      * apply IH. simpl. repeat split.
        -- rewrite <- app_assoc. exact H1.
        -- rewrite <- app_assoc in H2. exact H2.
        -- intros Ht. eauto.
Qed.

Lemma re_split_sentences_clean (p : str) :
  Forall (fun x => strip x = x) (re_split_sentences (strip p)).
Proof using terminator_not_space.
  apply split_sentences_from_clean. simpl. repeat split.
  - apply strip_starts_clean.
  - rewrite app_nil_r. apply strip_ends_clean.
  - discriminate.
Qed.

(** ** Length of the chunks *)

Lemma flush_buf_bounded max_chars sentences (Q : str -> Prop) chunks buf :
  (forall c, bounded_or_sentence max_chars sentences c -> Q c) ->
  Forall (fun x => strip x = x) sentences ->
  Forall Q chunks ->
  buf_inv max_chars sentences buf ->
  Forall Q (flush chunks buf).
Proof.
  intros HQ Hclean Hch Hbuf. unfold flush.
  destruct (truthy buf) eqn:Et; [|exact Hch].
  apply Forall_app. split; [exact Hch|]. constructor; [|constructor].
  apply HQ. destruct Hbuf as [-> | [Hle | Hin]]; [discriminate | |].
  - left. pose proof (strip_len buf). lia.
  - rewrite List.Forall_forall in Hclean. rewrite (Hclean _ Hin).
    destruct (Z_le_gt_dec (len buf) max_chars); [left; exact l | right; split; [exact Hin | lia]].
Qed.

Lemma add_sentence_inv max_chars sentences (Q : str -> Prop) chunks buf s :
  (forall c, bounded_or_sentence max_chars sentences c -> Q c) ->
  Forall (fun x => strip x = x) sentences ->
  In s sentences ->
  Forall Q chunks -> buf_inv max_chars sentences buf ->
  Forall Q (fst (add_sentence max_chars (chunks, buf) s))
  /\ buf_inv max_chars sentences (snd (add_sentence max_chars (chunks, buf) s)).
Proof.
  intros HQ Hclean Hs Hch Hbuf. unfold add_sentence.
  destruct (Z.gtb_spec (len buf + len s + 1) max_chars) as [E|E]; simpl.
  - split; [eapply flush_buf_bounded; eauto | right; right; exact Hs].
  - split; [exact Hch|]. right; left.
    destruct (truthy buf); [rewrite len_app, len_cons|];
      pose proof (len_nonneg buf); lia.
Qed.

Lemma sentence_loop_inv max_chars sentences (Q : str -> Prop) :
  (forall c, bounded_or_sentence max_chars sentences c -> Q c) ->
  Forall (fun x => strip x = x) sentences ->
  forall todo st,
    incl todo sentences ->
    Forall Q (fst st) -> buf_inv max_chars sentences (snd st) ->
    Forall Q (fst (fold_left (add_sentence max_chars) todo st))
    /\ buf_inv max_chars sentences (snd (fold_left (add_sentence max_chars) todo st)).
Proof.
  intros HQ Hclean todo.
  induction todo as [|s todo IH]; intros [chunks buf] Hincl Hch Hbuf; simpl.
  - split; assumption.
  - destruct (add_sentence_inv max_chars sentences Q chunks buf s) as [H1 H2]; auto.
    { apply Hincl. left. reflexivity. }
    apply IH; [|exact H1|exact H2].
    intros x Hx. apply Hincl. right. exact Hx.
Qed.

Lemma add_paragraph_inv text max_chars chunks current p0 :
  In p0 (re_split_newlines text) ->
  Forall (chunk_ok text max_chars) chunks ->
  (current = [] \/ (len current <= max_chars)%Z) ->
  Forall (chunk_ok text max_chars) (fst (add_paragraph max_chars (chunks, current) p0))
  /\ (snd (add_paragraph max_chars (chunks, current) p0) = []
      \/ (len (snd (add_paragraph max_chars (chunks, current) p0)) <= max_chars)%Z).
Proof using terminator_not_space.
  intros Hp Hch Hcur. unfold add_paragraph.
  destruct (truthy (strip p0)) eqn:Et; simpl; [|split; assumption].
  assert (Hflush : Forall (chunk_ok text max_chars) (flush chunks current)).
  { unfold flush. destruct (truthy current) eqn:Ec; [|exact Hch].
    apply Forall_app. split; [exact Hch|]. constructor; [|constructor].
    left. destruct Hcur as [-> | Hle]; [discriminate|].
    pose proof (strip_len current). lia. }
  destruct (Z.gtb_spec (len current + len (strip p0) + 1) max_chars) as [E1|E1].
  - destruct (Z.gtb_spec (len (strip p0)) max_chars) as [E2|E2].
    + pose proof (sentence_loop_inv max_chars (re_split_sentences (strip p0))
                    (chunk_ok text max_chars)) as Hloop.
      assert (HQ : forall c,
        bounded_or_sentence max_chars (re_split_sentences (strip p0)) c ->
        chunk_ok text max_chars c).
      { intros c [Hle | [Hin Hgt]]; [left; exact Hle|].
        right. exists p0. repeat split; auto. }
      specialize (Hloop HQ (re_split_sentences_clean p0)
                    (re_split_sentences (strip p0)) (flush chunks current, [])
                    (incl_refl _) Hflush (or_introl eq_refl)).
      destruct (fold_left _ _ _) as [chunks' buf] eqn:Ef. simpl in *.
      destruct Hloop as [H1 H2]. split; [|left; reflexivity].
      eapply flush_buf_bounded; eauto using re_split_sentences_clean.
    + simpl. split; [exact Hflush|]. right. lia.
  - simpl. split; [exact Hch|]. right.
    destruct (truthy current); [rewrite len_app, len_cons|];
      pose proof (len_nonneg current); lia.
Qed.

Lemma paragraph_loop_inv text max_chars : forall todo st,
  incl todo (re_split_newlines text) ->
  Forall (chunk_ok text max_chars) (fst st) ->
  (snd st = [] \/ (len (snd st) <= max_chars)%Z) ->
  Forall (chunk_ok text max_chars) (fst (fold_left (add_paragraph max_chars) todo st))
  /\ (snd (fold_left (add_paragraph max_chars) todo st) = []
      \/ (len (snd (fold_left (add_paragraph max_chars) todo st)) <= max_chars)%Z).
Proof using terminator_not_space.
  induction todo as [|p todo IH]; intros [chunks current] Hincl Hch Hcur; simpl.
  - split; assumption.
  - destruct (add_paragraph_inv text max_chars chunks current p) as [H1 H2]; auto.
    { apply Hincl. left. reflexivity. }
    apply IH; [|exact H1|exact H2].
    intros x Hx. apply Hincl. right. exact Hx.
Qed.

(** C2. Every chunk of [chunk_text text max_chars] has at most [max_chars]
    characters, except a chunk that is one sentence-like unit (a piece of
    the sentence split of a stripped paragraph longer than [max_chars]) whose
    own length exceeds [max_chars]; such a sentence is the chunk itself,
    whole and unsplit. *)
Theorem chunk_text_length_bound (text : str) (max_chars : Z) (c : str) :
  In c (chunk_text text max_chars) ->
  (len c <= max_chars)%Z
  \/ exists p, In p (re_split_newlines text)
       /\ (max_chars < len (strip p))%Z
       /\ In c (re_split_sentences (strip p))
       /\ (max_chars < len c)%Z.
Proof using terminator_not_space.
  unfold chunk_text. destruct (truthy text); simpl; [|intros []].
  pose proof (paragraph_loop_inv text max_chars (re_split_newlines text) ([], [])
                (incl_refl _) (List.Forall_nil _) (or_introl eq_refl)) as [H1 H2].
  destruct (fold_left _ _ _) as [chunks current]. simpl in *.
  intros Hin.
  assert (Hall : Forall (chunk_ok text max_chars) (flush chunks current)).
  { unfold flush. destruct (truthy current) eqn:Ec; [|exact H1].
    apply Forall_app. split; [exact H1|]. constructor; [|constructor].
    left. destruct H2 as [-> | Hle]; [discriminate|].
    pose proof (strip_len current). lia. }
  rewrite List.Forall_forall in Hall. exact (Hall c Hin).
Qed.

(** ** Content of the chunks *)

Lemma nonspace_app (a b : str) : nonspace (a ++ b) = nonspace a ++ nonspace b.
Proof. apply List.filter_app. Qed.

Lemma nonspace_lstrip (s : str) : nonspace (lstrip s) = nonspace s.
Proof.
  induction s as [|c s IH]; simpl; [reflexivity|].
  destruct (isspace c) eqn:E; simpl; [exact IH | rewrite E; reflexivity].
Qed.

Lemma nonspace_rev (s : str) : nonspace (rev s) = rev (nonspace s).
Proof.
  induction s as [|c s IH]; simpl; [reflexivity|].
  rewrite nonspace_app, IH. simpl. destruct (isspace c); simpl;
    [apply app_nil_r | reflexivity].
Qed.

Lemma nonspace_strip (s : str) : nonspace (strip s) = nonspace s.
Proof.
  unfold strip, rstrip.
  rewrite nonspace_rev, nonspace_lstrip, nonspace_rev, rev_involutive.
  apply nonspace_lstrip.
Qed.

Lemma nonspace_space (c : char) (s : str) :
  isspace c = true -> nonspace (c :: s) = nonspace s.
Proof. intros H. simpl. rewrite H. reflexivity. Qed.

Lemma nonspace_split_newlines_from (s : str) : forall insep cur,
  (insep = true -> cur = []) ->
  nonspace (concat (split_newlines_from insep cur s)) = nonspace (rev cur ++ s).
Proof using isspace_NL.
  induction s as [|c s IH]; intros insep cur Hcur; simpl.
  - rewrite !app_nil_r. reflexivity.
  - destruct (N.eqb_spec c NL) as [->|Hc].
    + rewrite nonspace_app, (nonspace_space NL s isspace_NL).
      destruct insep; simpl.
      * rewrite (Hcur eq_refl). simpl. rewrite IH by reflexivity. reflexivity.
      * rewrite nonspace_app, IH by reflexivity. reflexivity.
    + rewrite IH by discriminate. simpl. rewrite <- app_assoc. reflexivity.
Qed.

Lemma nonspace_paragraphs (text : str) :
  nonspace (concat (re_split_newlines text)) = nonspace text.
Proof using isspace_NL.
  unfold re_split_newlines.
  rewrite nonspace_split_newlines_from by discriminate. reflexivity.
Qed.

Lemma nonspace_split_sentences_from (s : str) : forall st cur,
  (st = InSep -> cur = []) ->
  nonspace (concat (split_sentences_from st cur s)) = nonspace (rev cur ++ s).
Proof.
  induction s as [|c s IH]; intros st cur Hcur; simpl.
  - destruct st; simpl; rewrite !app_nil_r; reflexivity.
  - destruct st as [|after]; simpl.
    + rewrite (Hcur eq_refl). simpl.
      destruct (isspace c) eqn:Ec; simpl.
      * rewrite IH by reflexivity. reflexivity.
      * rewrite IH by discriminate. simpl. rewrite Ec. reflexivity.
    + destruct (after && isspace c) eqn:E.
      * apply andb_prop in E as [_ Ec]. simpl.
        rewrite !nonspace_app, IH by reflexivity.
        rewrite (nonspace_space c s Ec). reflexivity.
      * rewrite IH by discriminate. simpl. rewrite <- app_assoc. reflexivity.
Qed.

Lemma nonspace_sentences (p : str) :
  nonspace (concat (re_split_sentences p)) = nonspace p.
Proof.
  unfold re_split_sentences.
  rewrite nonspace_split_sentences_from by discriminate. reflexivity.
Qed.

Lemma nonspace_flush (chunks : list str) (x : str) :
  nonspace (concat (flush chunks x)) = nonspace (concat chunks) ++ nonspace x.
Proof.
  unfold flush. destruct (truthy x) eqn:E.
  - rewrite concat_app, nonspace_app. simpl. rewrite app_nil_r, nonspace_strip.
    reflexivity.
  - rewrite (truthy_false x E). simpl. rewrite app_nil_r. reflexivity.
Qed.

Lemma held_add_sentence max_chars st s :
  held (add_sentence max_chars st s) = held st ++ nonspace s.
Proof using isspace_SP.
  destruct st as [chunks buf]. unfold add_sentence, held.
  destruct (len buf + len s + 1 >? max_chars)%Z; simpl.
  - rewrite nonspace_flush. reflexivity.
  - destruct (truthy buf) eqn:E.
    + rewrite nonspace_app, (nonspace_space SP s isspace_SP), app_assoc.
      reflexivity.
    + rewrite (truthy_false buf E). simpl. rewrite app_nil_r. reflexivity.
Qed.

Lemma held_sentence_loop max_chars : forall sentences st,
  held (fold_left (add_sentence max_chars) sentences st)
  = held st ++ nonspace (concat sentences).
Proof using isspace_SP.
  induction sentences as [|s sentences IH]; intros st; simpl.
  - rewrite app_nil_r. reflexivity.
  - rewrite IH, held_add_sentence, nonspace_app, app_assoc. reflexivity.
Qed.

Lemma held_add_paragraph max_chars st p0 :
  held (add_paragraph max_chars st p0) = held st ++ nonspace p0.
Proof using isspace_NL isspace_SP.
  destruct st as [chunks current]. unfold add_paragraph.
  destruct (truthy (strip p0)) eqn:Et; simpl.
  - destruct (len current + len (strip p0) + 1 >? max_chars)%Z.
    + destruct (len (strip p0) >? max_chars)%Z.
      * pose proof (held_sentence_loop max_chars (re_split_sentences (strip p0))
                      (flush chunks current, [])) as Hloop.
        destruct (fold_left _ _ _) as [chunks' buf]. unfold held in *. simpl in *.
        rewrite app_nil_r, nonspace_flush, Hloop, nonspace_flush, app_nil_r.
        rewrite nonspace_sentences, nonspace_strip. reflexivity.
      * unfold held. simpl. rewrite nonspace_flush, nonspace_strip.
        reflexivity.
    + unfold held. simpl. destruct (truthy current) eqn:Ec.
      * rewrite nonspace_app, (nonspace_space NL _ isspace_NL), nonspace_strip.
        apply app_assoc.
      * rewrite (truthy_false current Ec), nonspace_strip. simpl.
        rewrite app_nil_r. reflexivity.
  - unfold held. simpl.
    rewrite <- (nonspace_strip p0), (truthy_false _ Et). simpl.
    rewrite app_nil_r. reflexivity.
Qed.

Lemma held_paragraph_loop max_chars : forall paragraphs st,
  held (fold_left (add_paragraph max_chars) paragraphs st)
  = held st ++ nonspace (concat paragraphs).
Proof using isspace_NL isspace_SP.
  induction paragraphs as [|p paragraphs IH]; intros st; simpl.
  - rewrite app_nil_r. reflexivity.
  - rewrite IH, held_add_paragraph, nonspace_app, app_assoc. reflexivity.
Qed.

(** C3. The non-whitespace characters of the chunks of [chunk_text], taken
    in order, are the non-whitespace characters of the text: chunking loses
    nothing and keeps the order, up to white space. It holds for every
    [max_chars], the default included. *)
Theorem chunk_text_lossless (text : str) (max_chars : Z) :
  nonspace (concat (chunk_text text max_chars)) = nonspace text.
Proof using isspace_NL isspace_SP.
  unfold chunk_text. destruct (truthy text) eqn:Et; simpl.
  - pose proof (held_paragraph_loop max_chars (re_split_newlines text) ([], []))
      as Hloop.
    destruct (fold_left _ _ _) as [chunks current]. unfold held in Hloop.
    simpl in Hloop. rewrite nonspace_flush, Hloop. apply nonspace_paragraphs.
  - rewrite (truthy_false text Et). reflexivity.
Qed.

(** ** Tokens are the maximal runs of word characters *)

Lemma findall_word_from_run (w : str) : forall cur rest,
  Forall (fun c => isword c = true) w ->
  findall_word_from cur (w ++ rest) = findall_word_from (rev w ++ cur) rest.
Proof.
  induction w as [|c w IH]; intros cur rest Hw; simpl; [reflexivity|].
  inversion Hw as [|? ? Hc Hw']; subst. rewrite Hc, IH by assumption.
  rewrite <- app_assoc. reflexivity.
Qed.

Lemma findall_word_from_gap (gap : str) : forall rest,
  Forall (fun c => isword c = false) gap ->
  findall_word_from [] (gap ++ rest) = findall_word_from [] rest.
Proof.
  induction gap as [|c gap IH]; intros rest Hg; simpl; [reflexivity|].
  inversion Hg as [|? ? Hc Hg']; subst. rewrite Hc. simpl. apply IH, Hg'.
Qed.

(** A run of word characters that is preceded by non-word characters and
    followed by the end of the string or by a non-word character is the
    next token. *)
Lemma re_findall_word_maximal (gap w rest : str) :
  Forall (fun c => isword c = false) gap ->
  Forall (fun c => isword c = true) w -> w <> [] ->
  match rest with [] => True | c :: _ => isword c = false end ->
  re_findall_word (gap ++ w ++ rest) = w :: re_findall_word rest.
Proof.
  intros Hg Hw Hne Hrest. unfold re_findall_word.
  rewrite findall_word_from_gap, findall_word_from_run by assumption.
  rewrite app_nil_r.
  assert (Hemit : emit (rev w) = [w]).
  { unfold emit. rewrite rev_involutive.
    destruct (rev w) eqn:E; [|reflexivity].
    apply (f_equal (@rev N)) in E. rewrite rev_involutive in E. contradiction. }
  destruct rest as [|c rest]; simpl; [exact Hemit|].
  rewrite Hrest, Hemit. reflexivity.
Qed.

(** ** Scores *)

Lemma fold_add_shift (xs : list Z) : forall a,
  fold_left Z.add xs a = (a + fold_left Z.add xs 0)%Z.
Proof.
  induction xs as [|x xs IH]; intros a; cbn [fold_left]; [lia|].
  rewrite (IH (a + x)%Z), (IH (0 + x)%Z). lia.
Qed.

Lemma list_count_occurrences (words : list str) (t : str) :
  list_count words t = Z.of_nat (occurrences t words).
Proof.
  unfold occurrences. induction words as [|w words IH]; simpl; [reflexivity|].
  rewrite IH. destruct (bool_decide (w = t)); simpl length; lia.
Qed.

Lemma chunk_score_sum (tokens words : list str) :
  chunk_score tokens words
  = Z.of_nat (list_sum (map (fun t => occurrences t words) tokens)).
Proof.
  unfold chunk_score, sum. induction tokens as [|t tokens IH]; simpl; [reflexivity|].
  rewrite fold_add_shift, IH, list_count_occurrences. lia.
Qed.

Lemma chunk_score_overlap (query chunk : str) :
  chunk_score (tokens_of query) (tokens_of chunk) = overlap_score query chunk.
Proof. apply chunk_score_sum. Qed.

Lemma chunk_score_no_words (tokens : list str) : chunk_score tokens [] = 0%Z.
Proof.
  rewrite chunk_score_sum. induction tokens as [|t tokens IH]; simpl; [reflexivity|].
  exact IH.
Qed.

Lemma overlap_score_no_tokens (query chunk : str) :
  tokens_of query = [] -> overlap_score query chunk = 0%Z.
Proof. unfold overlap_score. intros ->. reflexivity. Qed.

(** ** The traversal *)

Lemma scan_chunk_results (query doc : str) (st : scan) (ic : Z * str) :
  results (scan_chunk (tokens_of query) doc st ic)
  = results st ++ candidate query doc ic.
Proof.
  destruct ic as [i chunk]. unfold scan_chunk, candidate. simpl snd. simpl fst.
  rewrite <- chunk_score_overlap. unfold tokens_of.
  destruct (re_findall_word (lower chunk)) as [|w words]; simpl.
  - rewrite chunk_score_no_words. simpl. rewrite app_nil_r. reflexivity.
  - rewrite Z.gtb_ltb.
    destruct (0 <? chunk_score (re_findall_word (lower query)) (w :: words))%Z;
      simpl; [reflexivity | rewrite app_nil_r; reflexivity].
Qed.

Lemma scan_chunks_results (query doc : str) : forall ics st,
  results (fold_left (scan_chunk (tokens_of query) doc) ics st)
  = results st ++ flat_map (candidate query doc) ics.
Proof.
  induction ics as [|ic ics IH]; intros st; simpl.
  - rewrite app_nil_r. reflexivity.
  - rewrite IH, scan_chunk_results, <- app_assoc. reflexivity.
Qed.

Lemma scan_documents_results (query : str) : forall docs st,
  results (fold_left (scan_document (tokens_of query)) docs st)
  = results st
    ++ flat_map (fun uf => flat_map (candidate query (name uf)) (enumerate (chunks uf)))
         docs.
Proof.
  induction docs as [|uf docs IH]; intros st; simpl.
  - rewrite app_nil_r. reflexivity.
  - rewrite IH. unfold scan_document at 1. rewrite scan_chunks_results.
    simpl. rewrite <- app_assoc. reflexivity.
Qed.

Lemma candidate_no_tokens (query doc : str) (ic : Z * str) :
  tokens_of query = [] -> candidate query doc ic = [].
Proof.
  intros H. unfold candidate. rewrite (overlap_score_no_tokens _ _ H). reflexivity.
Qed.

Lemma encounter_order_no_tokens (ss : session_state) (query : str) :
  tokens_of query = [] -> encounter_order ss query = [].
Proof.
  intros H. unfold encounter_order.
  induction (uploaded_files ss) as [|uf docs IH]; simpl; [reflexivity|].
  rewrite IH, app_nil_r.
  induction (enumerate (chunks uf)) as [|ic ics IH']; simpl; [reflexivity|].
  rewrite IH', (candidate_no_tokens _ _ _ H). reflexivity.
Qed.

(** The retriever sorts the matches of the traversal and cuts the list. *)
Lemma simple_retrieve_unfold (ss : session_state) (query : str) (top_k : Z) :
  simple_retrieve ss query top_k
  = slice_to top_k (sort_reverse score (encounter_order ss query)).
Proof.
  unfold simple_retrieve, simple_retrieve_traced. fold (tokens_of query).
  destruct (tokens_of query) as [|t ts] eqn:Et; simpl.
  - rewrite (encounter_order_no_tokens ss query Et).
    unfold slice_to. simpl. destruct (top_k <? 0)%Z; rewrite firstn_nil; reflexivity.
  - rewrite <- Et, scan_documents_results. reflexivity.
Qed.

(** ** The sort *)

Section Sort.
Context {A : Type} (key : A -> Z).

Lemma insert_desc_length (x : A) (l : list A) :
  length (insert_desc key x l) = S (length l).
Proof.
  induction l as [|y l IH]; simpl; [reflexivity|].
  destruct (key x <? key y)%Z; simpl; [rewrite IH|]; reflexivity.
Qed.

Lemma sort_reverse_length (l : list A) :
  length (sort_reverse key l) = length l.
Proof.
  induction l as [|x l IH]; simpl; [reflexivity|].
  rewrite insert_desc_length, IH. reflexivity.
Qed.

Lemma insert_desc_In (x : A) (l : list A) (m : A) :
  In m (insert_desc key x l) <-> m = x \/ In m l.
Proof.
  induction l as [|y l IH]; simpl; [intuition auto|].
  destruct (key x <? key y)%Z; simpl; [rewrite IH|]; intuition auto.
Qed.

Lemma sort_reverse_In (l : list A) (m : A) :
  In m (sort_reverse key l) <-> In m l.
Proof.
  induction l as [|x l IH]; simpl; [reflexivity|].
  rewrite insert_desc_In, IH. intuition auto.
Qed.

Lemma insert_desc_descending (x : A) (l : list A) :
  descending key l -> descending key (insert_desc key x l).
Proof.
  unfold descending. induction l as [|y l IH]; intros Hl; simpl.
  - constructor; constructor.
  - inversion Hl as [|? ? Hl' Hy]; subst.
    destruct (Z.ltb_spec (key x) (key y)) as [Hlt|Hge].
    + constructor; [apply IH, Hl'|].
      rewrite List.Forall_forall in *. intros m Hm.
      apply insert_desc_In in Hm as [->|Hm]; [lia | apply Hy, Hm].
    + constructor; [exact Hl|]. constructor; [exact Hge|].
      rewrite List.Forall_forall in *. intros m Hm. specialize (Hy m Hm). lia.
Qed.

Lemma sort_reverse_descending (l : list A) : descending key (sort_reverse key l).
Proof.
  induction l as [|x l IH]; simpl; [constructor|].
  apply insert_desc_descending, IH.
Qed.

(** Stability: an element only moves past elements with a strictly larger
    key, so the elements with a given key keep their order. *)
Lemma insert_desc_stable (v : Z) (x : A) (l : list A) :
  List.filter (fun m => (key m =? v)%Z) (insert_desc key x l)
  = List.filter (fun m => (key m =? v)%Z) (x :: l).
Proof.
  induction l as [|y l IH]; [reflexivity|].
  simpl insert_desc. destruct (Z.ltb_spec (key x) (key y)) as [Hlt|Hge];
    [|reflexivity].
  simpl List.filter in *. rewrite IH.
  destruct (Z.eqb_spec (key x) v), (Z.eqb_spec (key y) v);
    try reflexivity; lia.
Qed.

Lemma sort_reverse_stable (v : Z) (l : list A) :
  List.filter (fun m => (key m =? v)%Z) (sort_reverse key l)
  = List.filter (fun m => (key m =? v)%Z) l.
Proof.
  induction l as [|x l IH]; [reflexivity|].
  simpl sort_reverse. rewrite insert_desc_stable. simpl. rewrite IH. reflexivity.
Qed.

Lemma firstn_In (n : nat) (l : list A) (m : A) : In m (firstn n l) -> In m l.
Proof.
  intros Hm. rewrite <- (firstn_skipn n l). apply in_or_app. left. exact Hm.
Qed.

Lemma firstn_descending (n : nat) (l : list A) :
  descending key l -> descending key (firstn n l).
Proof.
  unfold descending. revert n. induction l as [|x l IH]; intros n Hl.
  - rewrite firstn_nil. constructor.
  - destruct n as [|n]; simpl; [constructor|].
    inversion Hl as [|? ? Hl' Hx]; subst. constructor; [apply IH, Hl'|].
    rewrite List.Forall_forall in *. intros m Hm. apply Hx.
    eapply firstn_In; eauto.
Qed.

End Sort.

Lemma slice_to_firstn {A} (k : Z) (l : list A) :
  exists n, slice_to k l = firstn n l.
Proof. unfold slice_to. destruct (k <? 0)%Z; eauto. Qed.

Lemma slice_to_length {A} (k : Z) (l : list A) :
  (0 <= k)%Z -> len (slice_to k l) = Z.min k (len l).
Proof.
  intros Hk. unfold slice_to, len.
  destruct (Z.ltb_spec k 0) as [Hlt|_]; [lia|].
  rewrite length_firstn. lia.
Qed.

Lemma filter_firstn_prefix {A} (f : A -> bool) (n : nat) (l : list A) :
  exists rest, List.filter f l = List.filter f (firstn n l) ++ rest.
Proof.
  exists (List.filter f (skipn n l)).
  rewrite <- List.filter_app, firstn_skipn. reflexivity.
Qed.

(** ** Ranking *)

(** C4. The matches returned by the retriever are in non-increasing order of
    score, and for every score [v] the returned matches with score [v] are,
    in the same order, the first ones among the matches with score [v] of
    the document-by-document, chunk-by-chunk traversal: ties keep the order
    of the traversal. *)
Theorem simple_retrieve_ranked (ss : session_state) (query : str) (top_k : Z) :
  StronglySorted (fun a b => (score b <= score a)%Z) (simple_retrieve ss query top_k)
  /\ forall v, exists rest,
       with_score v (encounter_order ss query)
       = with_score v (simple_retrieve ss query top_k) ++ rest.
Proof.
  rewrite simple_retrieve_unfold.
  destruct (slice_to_firstn top_k (sort_reverse score (encounter_order ss query)))
    as [n ->].
  split.
  - apply (firstn_descending score), sort_reverse_descending.
  - intros v. unfold with_score.
    rewrite <- (sort_reverse_stable score v (encounter_order ss query)).
    apply filter_firstn_prefix.
Qed.

(** ** Number of matches *)

Lemma candidates_length (query doc : str) (cs : list str) : forall i,
  length (flat_map (candidate query doc) (enumerate_from i cs))
  = length (List.filter (fun c => (0 <? overlap_score query c)%Z) cs).
Proof.
  induction cs as [|c cs IH]; intros i; simpl; [reflexivity|].
  rewrite length_app, IH. unfold candidate. simpl.
  destruct (0 <? overlap_score query c)%Z; reflexivity.
Qed.

Lemma encounter_order_length (ss : session_state) (query : str) :
  length (encounter_order ss query) = length (positive_chunks ss query).
Proof.
  unfold encounter_order, positive_chunks, all_chunks.
  induction (uploaded_files ss) as [|uf docs IH]; simpl; [reflexivity|].
  rewrite List.filter_app, !length_app, IH. unfold enumerate.
  rewrite candidates_length. reflexivity.
Qed.

Lemma encounter_order_In (ss : session_state) (query : str) (m : Match) :
  In m (encounter_order ss query) ->
  (0 < score m)%Z /\ score m = overlap_score query (chunk m)
  /\ In (chunk m) (all_chunks ss).
Proof.
  unfold encounter_order, all_chunks. intros Hm.
  apply in_flat_map in Hm as (uf & Huf & Hm).
  apply in_flat_map in Hm as ([i c] & Hic & Hm).
  unfold candidate in Hm. simpl in Hm.
  destruct (Z.ltb_spec 0 (overlap_score query c)) as [Hpos|_]; [|destruct Hm].
  destruct Hm as [<-|[]]. simpl. repeat split; [exact Hpos|].
  apply in_flat_map. exists uf. split; [exact Huf|].
  clear -Hic. unfold enumerate in Hic. revert Hic. generalize 0%Z.
  induction (chunks uf) as [|c' cs IH]; intros j; simpl; [intros []|].
  intros [Heq|Hin]; [left; congruence | right; eapply IH; eauto].
Qed.

Lemma simple_retrieve_In (ss : session_state) (query : str) (top_k : Z) (m : Match) :
  In m (simple_retrieve ss query top_k) -> In m (encounter_order ss query).
Proof.
  rewrite simple_retrieve_unfold.
  destruct (slice_to_firstn top_k (sort_reverse score (encounter_order ss query)))
    as [n ->].
  intros Hm. apply firstn_In in Hm.
  exact (proj1 (sort_reverse_In score _ _) Hm).
Qed.

(** C5, as the code has it. For a top-K that is not negative, the retriever
    returns at most [top_k] matches, exactly the smaller of [top_k] and the
    number of chunks of the corpus with a positive score; and every match
    returned has a positive score. *)
Theorem simple_retrieve_top_k (ss : session_state) (query : str) (top_k : Z) :
  (0 <= top_k)%Z ->
  (len (simple_retrieve ss query top_k) <= top_k)%Z
  /\ len (simple_retrieve ss query top_k)
     = Z.min top_k (len (positive_chunks ss query))
  /\ forall m, In m (simple_retrieve ss query top_k) -> (0 < score m)%Z.
Proof.
  intros Hk.
  assert (Hlen : len (sort_reverse score (encounter_order ss query))
                 = len (positive_chunks ss query)).
  { unfold len. rewrite sort_reverse_length, encounter_order_length. reflexivity. }
  split; [|split].
  - rewrite simple_retrieve_unfold, (slice_to_length top_k _ Hk). lia.
  - rewrite simple_retrieve_unfold, (slice_to_length top_k _ Hk), Hlen.
    reflexivity.
  - intros m Hm. apply simple_retrieve_In, encounter_order_In in Hm.
    destruct Hm as [Hpos _]. exact Hpos.
Qed.

(** ** Queries without a token *)

Lemma re_findall_word_no_word (s : str) :
  Forall (fun c => isword c = false) s -> re_findall_word s = [].
Proof.
  intros Hs. unfold re_findall_word.
  rewrite <- (app_nil_r s), findall_word_from_gap by exact Hs. reflexivity.
Qed.

Lemma scan_chunk_trace (tokens : list str) (doc : str) (st : scan) (ic : Z * str) :
  trace (scan_chunk tokens doc st ic) = trace st ++ [ScanChunk doc (fst ic)].
Proof.
  destruct ic as [i chunk]. unfold scan_chunk.
  destruct (truthy (re_findall_word (lower chunk))); simpl; [|reflexivity].
  destruct (chunk_score tokens (re_findall_word (lower chunk)) >? 0)%Z; reflexivity.
Qed.

Lemma scan_chunks_trace (tokens : list str) (doc : str) : forall ics st,
  trace (fold_left (scan_chunk tokens doc) ics st)
  = trace st ++ map (fun ic => ScanChunk doc (fst ic)) ics.
Proof.
  induction ics as [|ic ics IH]; intros st; simpl.
  - rewrite app_nil_r. reflexivity.
  - rewrite IH, scan_chunk_trace, <- app_assoc. reflexivity.
Qed.

Lemma scan_documents_trace (tokens : list str) : forall docs st,
  trace (fold_left (scan_document tokens) docs st)
  = trace st
    ++ flat_map (fun uf => VisitDocument (name uf)
                           :: map (fun ic => ScanChunk (name uf) (fst ic))
                                (enumerate (chunks uf)))
         docs.
Proof.
  induction docs as [|uf docs IH]; intros st; simpl.
  - rewrite app_nil_r. reflexivity.
  - rewrite IH. unfold scan_document at 1. rewrite scan_chunks_trace.
    simpl. rewrite <- !app_assoc. reflexivity.
Qed.

(** X19. A query with a token makes the retriever go through the whole
    corpus, whatever [top_k]: it visits every document and scans every
    chunk once, in the order of the corpus. *)
Lemma simple_retrieve_traced_full (ss : session_state) (query : str) (top_k : Z) :
  re_findall_word (lower query) <> [] ->
  snd (simple_retrieve_traced ss query top_k) = full_scan ss.
Proof.
  intros Hne. unfold simple_retrieve_traced, full_scan.
  destruct (re_findall_word (lower query)) as [|t ts]; [contradiction|]. simpl.
  rewrite scan_documents_trace. reflexivity.
Qed.

(** C8. For a query without a word character, the retriever returns the
    empty sequence and its trace is empty: it visits no document and scans
    no chunk. *)
Theorem simple_retrieve_no_word_character
    (ss : session_state) (query : str) (top_k : Z) :
  Forall (fun c => isword c = false) query ->
  simple_retrieve_traced ss query top_k = ([], [])
  /\ simple_retrieve ss query top_k = [].
Proof using lower_keeps_nonword.
  intros Hq. unfold simple_retrieve, simple_retrieve_traced.
  rewrite (re_findall_word_no_word (lower query) (lower_keeps_nonword _ Hq)).
  split; reflexivity.
Qed.

(** ** Highlighting *)

Lemma sub_word_from_segments (f : str -> str) (s : str) : forall cur,
  sub_word_from f cur s = concat (map (render f) (segments_from cur s)).
Proof.
  induction s as [|c s IH]; intros cur; simpl.
  - unfold emit. destruct (truthy cur); reflexivity.
  - destruct (isword c); [apply IH|].
    rewrite map_app, concat_app. simpl. rewrite IH.
    unfold emit. destruct (truthy cur); reflexivity.
Qed.

Lemma word_segments_from (s : str) : forall cur,
  word_segments (segments_from cur s) = findall_word_from cur s.
Proof.
  unfold word_segments.
  induction s as [|c s IH]; intros cur; simpl.
  - unfold emit. destruct (truthy cur); reflexivity.
  - destruct (isword c); [apply IH|].
    rewrite flat_map_app. simpl. rewrite IH.
    unfold emit. destruct (truthy cur); reflexivity.
Qed.

Lemma emit_text (cur : str) :
  concat (map (render (fun w => w)) (map Word (emit cur))) = rev cur.
Proof. unfold emit. destruct cur; simpl; [reflexivity | apply app_nil_r]. Qed.

Lemma segments_from_text (s : str) : forall cur,
  concat (map (render (fun w => w)) (segments_from cur s)) = rev cur ++ s.
Proof.
  induction s as [|c s IH]; intros cur; simpl.
  - rewrite emit_text, app_nil_r. reflexivity.
  - destruct (isword c).
    + rewrite IH. simpl. rewrite <- app_assoc. reflexivity.
    + rewrite map_app, concat_app, emit_text. simpl. rewrite IH. reflexivity.
Qed.

Lemma marked_differs (w : str) : marked w <> w.
Proof.
  intros H. apply (f_equal (@length N)) in H. unfold marked in H.
  rewrite !length_app in H. simpl in H. lia.
Qed.

Lemma repl_spec (query w : str) :
  (In (lower w) (tokens_of query) ->
     repl (list_to_set (tokens_of query)) w = marked w)
  /\ (~ In (lower w) (tokens_of query) ->
        repl (list_to_set (tokens_of query)) w = w).
Proof.
  unfold repl. fold (marked w). split; intros H.
  - rewrite bool_decide_eq_true_2; [reflexivity|].
    apply elem_of_list_to_set, list_elem_of_In, H.
  - rewrite bool_decide_eq_false_2; [reflexivity|].
    intros Hin. apply H, list_elem_of_In. apply elem_of_list_to_set in Hin. exact Hin.
Qed.

(** C9. The highlighted snippet is the snippet with each of its word tokens
    [w] (the segments of [re.sub], which are the tokens [re.findall] gives)
    replaced by [repl w], the other characters kept; and [repl w] is [w]
    between highlight markers exactly when the lowercase form of [w] is among
    the lowercased word tokens of the query, and [w] itself otherwise. The
    test is on the set of the query tokens: two queries with the same tokens,
    whatever the repeats, highlight alike. This is what each line of the
    answer composer carries after its header. *)
Theorem highlight_marks_query_tokens (query snippet : str) :
  highlight (list_to_set (tokens_of query)) snippet
  = concat (map (render (repl (list_to_set (tokens_of query)))) (segments snippet))
  /\ concat (map (render (fun w => w)) (segments snippet)) = snippet
  /\ word_segments (segments snippet) = re_findall_word snippet
  /\ (forall w,
        (repl (list_to_set (tokens_of query)) w = marked w
           <-> In (lower w) (tokens_of query))
        /\ (repl (list_to_set (tokens_of query)) w = w
              <-> ~ In (lower w) (tokens_of query)))
  /\ (forall query',
        (forall t, In t (tokens_of query) <-> In t (tokens_of query')) ->
        highlight (list_to_set (tokens_of query')) snippet
        = highlight (list_to_set (tokens_of query)) snippet)
  /\ (forall m, exists header,
        match_line query m
        = header ++ highlight (list_to_set (tokens_of query)) (snippet_of m)).
Proof.
  split; [apply sub_word_from_segments|].
  split; [apply (segments_from_text snippet [])|].
  split; [apply word_segments_from|].
  split; [|split].
  - intros w. destruct (repl_spec query w) as [Hin Hout].
    destruct (in_dec (List.list_eq_dec N.eq_dec) (lower w) (tokens_of query)) as [H|H].
    + rewrite (Hin H). split; split; intros H'; auto.
      * destruct (marked_differs w H').
      * contradiction.
    + rewrite (Hout H). split; split; intros H'; auto.
      * symmetry in H'. destruct (marked_differs w H').
      * contradiction.
  - intros query' Hsame.
    assert (Hset : list_to_set (tokens_of query') =@{gset (list N)} list_to_set (tokens_of query)).
    { apply set_eq. intros t. rewrite !elem_of_list_to_set, !list_elem_of_In.
      symmetry. apply Hsame. }
    rewrite Hset. reflexivity.
  - intros m. unfold match_line. fold (tokens_of query).
    exists (s2l "From " ++ file m ++ s2l " (score=" ++ str_of_int (score m)
            ++ s2l "):" ++ [NL] ++ s2l "> ").
    rewrite <- !app_assoc. reflexivity.
Qed.

(** ** Extraction *)

Lemma try_except_ok {A} (body : result A) (a : A) :
  exists b, try_except body (Ok a) = Ok b.
Proof. destruct body; simpl; eauto. Qed.

Lemma extract_text_from_pdf_total (data : bytes) :
  exists t, extract_text_from_pdf data = Ok t.
Proof.
  unfold extract_text_from_pdf. destruct PyPDF2; [apply try_except_ok | eauto].
Qed.

Lemma extract_text_from_docx_total (data : bytes) :
  exists t, extract_text_from_docx data = Ok t.
Proof.
  unfold extract_text_from_docx. destruct docx; [apply try_except_ok | eauto].
Qed.

Lemma page_texts_raise (pages : list (result (option str))) :
  In Raise pages ->
  mapM (fun page => t ← page; Ok (default [] t)) pages = Raise.
Proof.
  induction pages as [|pg pages IH]; intros Hin; [destruct Hin|].
  simpl. destruct Hin as [->|Hin]; [reflexivity|].
  rewrite (IH Hin). destruct pg; reflexivity.
Qed.

Lemma extract_text_from_pdf_fails (data : bytes) :
  pdf_fails data -> extract_text_from_pdf data = Ok [].
Proof.
  unfold pdf_fails, extract_text_from_pdf.
  destruct PyPDF2 as [reader|]; [|reflexivity].
  intros [Hr | (pages & Hr & Hin)]; rewrite Hr; simpl; [reflexivity|].
  rewrite (page_texts_raise pages Hin). reflexivity.
Qed.

Lemma extract_text_from_docx_fails (data : bytes) :
  docx_fails data -> extract_text_from_docx data = Ok [].
Proof.
  unfold docx_fails, extract_text_from_docx.
  destruct docx as [reader|]; [|reflexivity].
  intros ->. reflexivity.
Qed.

Lemma bytes_repr_len (data : bytes) : (3 <= len (bytes_repr data))%Z.
Proof.
  unfold bytes_repr. cbv zeta. rewrite len_app, len_app.
  rewrite !len_cons.
  pose proof (len_nonneg (flat_map
    (repr_byte (if existsb (N.eqb 39) (map Byte.to_N data)
                   && negb (existsb (N.eqb 34) (map Byte.to_N data))
                then 34%N else 39%N))
    (map Byte.to_N data))).
  change (len (@nil N)) with 0%Z. lia.
Qed.

Lemma bytes_repr_nonempty (data : bytes) : bytes_repr data <> [].
Proof.
  intros H. pose proof (bytes_repr_len data) as Hlen. rewrite H in Hlen.
  unfold len in Hlen. simpl in Hlen. lia.
Qed.

(** The last step of [parse_uploaded_file]: an empty text is replaced by the
    rendering of the raw bytes. *)
Lemma parse_uploaded_file_fallback (f : UploadedFile.t) (r : result str) :
  (exists t, r = Ok t) ->
  exists text,
    (text ← r;
     if negb (truthy text) then try_except (str_of_bytes (UploadedFile.read f)) (Ok [])
     else Ok text) = Ok text
    /\ text <> []
    /\ (r = Ok [] -> text = bytes_repr (UploadedFile.read f))
    /\ (forall t, r = Ok t -> t <> [] -> text = t).
Proof.
  intros [t ->]. simpl. destruct t as [|c t]; simpl.
  - exists (bytes_repr (UploadedFile.read f)).
    repeat split; auto using bytes_repr_nonempty.
    intros t Ht Hne. inversion Ht; subst. contradiction.
  - exists (c :: t). repeat split; try discriminate.
    intros t' Ht' _. inversion Ht'; subst. reflexivity.
Qed.

Lemma extraction_total (f : UploadedFile.t) :
  exists t,
    (if endswith (lower (UploadedFile.name f)) (s2l ".pdf")
     then extract_text_from_pdf (UploadedFile.read f)
     else if endswith (lower (UploadedFile.name f)) (s2l ".docx")
     then extract_text_from_docx (UploadedFile.read f)
     else try_except (decode_utf8 (UploadedFile.read f))
            (try_except (decode_latin1 (UploadedFile.read f)) (Ok []))) = Ok t.
Proof.
  destruct (endswith _ (s2l ".pdf")); [apply extract_text_from_pdf_total|].
  destruct (endswith _ (s2l ".docx")); [apply extract_text_from_docx_total|].
  destruct (decode_utf8 (UploadedFile.read f)); simpl; eauto.
Qed.

Lemma parse_uploaded_file_ok (f : UploadedFile.t) :
  exists text, parse_uploaded_file f = Ok text /\ text <> [].
Proof.
  unfold parse_uploaded_file.
  destruct (parse_uploaded_file_fallback f _ (extraction_total f))
    as (text & H1 & H2 & _).
  exists text. split; assumption.
Qed.

Lemma parse_uploaded_file_text_of (f : UploadedFile.t) :
  parse_uploaded_file f = Ok (text_of f) /\ text_of f <> [].
Proof.
  unfold text_of. destruct (parse_uploaded_file_ok f) as (text & -> & Hne).
  split; [reflexivity | exact Hne].
Qed.

Lemma decode_utf8_raise_nonempty (data : bytes) :
  decode_utf8 data = Raise -> map Byte.to_N data <> [].
Proof.
  unfold decode_utf8. intros H Hnil. rewrite Hnil in H. discriminate.
Qed.

(** C7. Whatever the file name and the bytes, [parse_uploaded_file] returns
    a string and does not raise. Latin-1 decodes every byte sequence. On the
    plain-text path a UTF-8 text that is not empty is returned, and when
    UTF-8 raises the Latin-1 text is. On the PDF and DOCX paths a missing
    backend or a failure of the reader gives the empty text, in place of
    which the rendering of the raw bytes is returned. *)
Theorem parse_uploaded_file_never_raises (f : UploadedFile.t) :
  (exists text, parse_uploaded_file f = Ok text)
  /\ (forall data, decode_latin1 data = Ok (map Byte.to_N data))
  /\ (endswith (lower (UploadedFile.name f)) (s2l ".pdf") = false ->
      endswith (lower (UploadedFile.name f)) (s2l ".docx") = false ->
      (forall t, decode_utf8 (UploadedFile.read f) = Ok t -> t <> [] ->
                 parse_uploaded_file f = Ok t)
      /\ (decode_utf8 (UploadedFile.read f) = Raise ->
          parse_uploaded_file f = Ok (map Byte.to_N (UploadedFile.read f))))
  /\ (endswith (lower (UploadedFile.name f)) (s2l ".pdf") = true ->
      pdf_fails (UploadedFile.read f) ->
      parse_uploaded_file f = Ok (bytes_repr (UploadedFile.read f)))
  /\ (endswith (lower (UploadedFile.name f)) (s2l ".pdf") = false ->
      endswith (lower (UploadedFile.name f)) (s2l ".docx") = true ->
      docx_fails (UploadedFile.read f) ->
      parse_uploaded_file f = Ok (bytes_repr (UploadedFile.read f))).
Proof.
  split; [destruct (parse_uploaded_file_ok f) as (text & H & _); eauto|].
  split; [reflexivity|].
  unfold parse_uploaded_file.
  split; [|split].
  - intros -> ->. split.
    + intros t -> Hne. simpl. destruct t; [contradiction | reflexivity].
    + intros Hr. pose proof (decode_utf8_raise_nonempty _ Hr) as Hne.
      rewrite Hr. simpl.
      destruct (map Byte.to_N (UploadedFile.read f)); [contradiction | reflexivity].
  - intros -> Hf. rewrite (extract_text_from_pdf_fails _ Hf). reflexivity.
  - intros -> -> Hf. rewrite (extract_text_from_docx_fails _ Hf). reflexivity.
Qed.

(** ** Indexing *)

Lemma index_file_spec (st : session_state) (f : UploadedFile.t) :
  index_file st f
  = Ok {| messages := messages st;
          uploaded_files := uploaded_files st ++ [document_of f] |}.
Proof.
  unfold index_file, document_of.
  destruct (parse_uploaded_file_text_of f) as [-> _]. reflexivity.
Qed.

Lemma index_uploaded_files_spec (fs : list UploadedFile.t) : forall st,
  index_uploaded_files fs st
  = Ok {| messages := messages st;
          uploaded_files := uploaded_files st ++ map document_of fs |}.
Proof.
  induction fs as [|f fs IH]; intros st; simpl.
  - rewrite app_nil_r. destruct st; reflexivity.
  - rewrite index_file_spec. simpl. rewrite IH. simpl.
    rewrite <- app_assoc. reflexivity.
Qed.

Lemma on_upload_spec (uploaded : list UploadedFile.t) (st : session_state) :
  on_upload uploaded st
  = Ok (if truthy uploaded
        then {| messages := messages st; uploaded_files := map document_of uploaded |}
        else st).
Proof.
  unfold on_upload. destruct (truthy uploaded); [|reflexivity].
  rewrite index_uploaded_files_spec. reflexivity.
Qed.

(** An empty value of the uploader leaves the corpus as it is. *)
Lemma on_upload_nothing (st : session_state) : on_upload [] st = Ok st.
Proof. reflexivity. Qed.

(** C6, as the code has it. When the uploader holds a batch [B] that is not
    empty, after a run that held a batch [A], the corpus is exactly the
    documents of [B], in the order of [B], one per file whatever the names;
    nothing of the previous corpus is left, and the transcript is
    untouched. *)
Theorem on_upload_replaces_corpus
    (st : session_state) (A B : list UploadedFile.t) :
  B <> [] ->
  exists st1 st2,
    on_upload A st = Ok st1
    /\ on_upload B st1 = Ok st2
    /\ uploaded_files st2 = map document_of B
    /\ map name (uploaded_files st2) = map UploadedFile.name B
    /\ messages st2 = messages st.
Proof.
  intros HB. rewrite on_upload_spec. eexists. eexists.
  split; [reflexivity|]. rewrite on_upload_spec.
  split; [reflexivity|].
  destruct B as [|b B]; [contradiction|]. simpl.
  split; [reflexivity|]. split.
  - f_equal. rewrite map_map. reflexivity.
  - destruct (truthy A); reflexivity.
Qed.

(** ** Stored texts *)

Lemma show_preview_text (uf : document) :
  text uf <> [] -> show_preview uf = TextArea (firstn 3000 (text uf)).
Proof.
  unfold show_preview. destruct (text uf) as [|c t]; [contradiction|].
  reflexivity.
Qed.

Lemma document_of_text (f : UploadedFile.t) : text (document_of f) <> [].
Proof. apply parse_uploaded_file_text_of. Qed.

Lemma reachable_texts (st : session_state) :
  reachable st -> Forall (fun uf => text uf <> []) (uploaded_files st).
Proof.
  induction 1 as [|st uploaded prompt st' Hst IH Hrun]; [constructor|].
  unfold run_script in Hrun. rewrite on_upload_spec in Hrun. simpl in Hrun.
  assert (Hup : Forall (fun uf => text uf <> [])
                  (uploaded_files
                     (if truthy uploaded
                      then {| messages := messages st;
                              uploaded_files := map document_of uploaded |}
                      else st))).
  { destruct (truthy uploaded); [|exact IH]. simpl.
    apply List.Forall_forall. intros uf Huf.
    apply in_map_iff in Huf as (f & <- & _). apply document_of_text. }
  inversion Hrun; subst. destruct prompt; exact Hup.
Qed.

(** C10. [parse_uploaded_file] returns a string that is not empty, for every
    uploaded file: [str(data)] has at least the three characters of
    [b''], which is what a plain-text file without content gives. So in
    every state the session reaches, the text stored for a document is not
    empty and its expander shows a preview, never the notice of a missing
    one. *)
Theorem stored_text_never_empty :
  (forall f, exists text, parse_uploaded_file f = Ok text /\ text <> [])
  /\ (forall data, (3 <= len (bytes_repr data))%Z)
  /\ (forall name,
        endswith (lower name) (s2l ".pdf") = false ->
        endswith (lower name) (s2l ".docx") = false ->
        parse_uploaded_file {| UploadedFile.name := name; UploadedFile.read := [] |}
        = Ok (s2l "b''"))
  /\ (forall st, reachable st ->
        Forall (fun uf => text uf <> [] /\ show_preview uf <> NoPreview)
          (uploaded_files st)).
Proof.
  split; [exact parse_uploaded_file_ok|].
  split; [exact bytes_repr_len|].
  split.
  - intros name H1 H2. unfold parse_uploaded_file. simpl. rewrite H1, H2.
    reflexivity.
  - intros st Hst. apply reachable_texts in Hst.
    rewrite List.Forall_forall in *. intros uf Huf. specialize (Hst uf Huf).
    split; [exact Hst|]. rewrite (show_preview_text uf Hst). discriminate.
Qed.

(** ** Scores of the matches *)

Lemma simple_retrieve_scores (ss : session_state) (query : str) (top_k : Z) (m : Match) :
  In m (simple_retrieve ss query top_k) ->
  score m = overlap_score query (chunk m) /\ In (chunk m) (all_chunks ss).
Proof.
  intros Hm. apply simple_retrieve_In, encounter_order_In in Hm.
  destruct Hm as (_ & H1 & H2). split; assumption.
Qed.

(** ** Further properties of the chunker *)

Lemma starts_clean_app (a b : str) :
  a <> [] -> starts_clean a -> starts_clean (a ++ b).
Proof. destruct a; [contradiction | intros _ H; exact H]. Qed.

Lemma strip_nonempty (x : str) : x <> [] -> starts_clean x -> strip x <> [].
Proof.
  destruct x as [|c x]; [contradiction|]. intros _ Hc. simpl in Hc.
  unfold strip. rewrite (lstrip_clean (c :: x) Hc). unfold rstrip. simpl.
  destruct (lstrip_snoc (rev x) c Hc) as [s' ->].
  rewrite rev_app_distr. discriminate.
Qed.

Lemma strip_trimmed (x : str) : x <> [] -> starts_clean x -> trimmed (strip x).
Proof.
  intros Hne Hc. split; [apply strip_nonempty; assumption|].
  split; [apply strip_starts_clean | apply strip_ends_clean].
Qed.

Lemma flush_trimmed (chunks : list str) (x : str) :
  Forall trimmed chunks -> starts_clean x -> Forall trimmed (flush chunks x).
Proof.
  intros Hch Hx. unfold flush. destruct x as [|c x]; [exact Hch|]. simpl truthy.
  apply Forall_app. split; [exact Hch|]. constructor; [|constructor].
  apply strip_trimmed; [discriminate | exact Hx].
Qed.

Lemma add_sentence_trimmed max_chars (st : list str * str) (s : str) :
  Forall trimmed (fst st) -> starts_clean (snd st) -> starts_clean s ->
  Forall trimmed (fst (add_sentence max_chars st s))
  /\ starts_clean (snd (add_sentence max_chars st s)).
Proof.
  destruct st as [chunks buf]. simpl. intros Hch Hbuf Hs. unfold add_sentence.
  destruct (len buf + len s + 1 >? max_chars)%Z; simpl.
  - split; [apply flush_trimmed; assumption | exact Hs].
  - split; [exact Hch|]. destruct buf as [|c buf]; [exact Hs | exact Hbuf].
Qed.

Lemma sentence_loop_trimmed max_chars : forall sentences st,
  Forall starts_clean sentences ->
  Forall trimmed (fst st) -> starts_clean (snd st) ->
  Forall trimmed (fst (fold_left (add_sentence max_chars) sentences st))
  /\ starts_clean (snd (fold_left (add_sentence max_chars) sentences st)).
Proof.
  induction sentences as [|s sentences IH]; intros st Hs Hch Hbuf; simpl.
  - split; assumption.
  - inversion Hs as [|? ? Hs1 Hs2]; subst.
    destruct (add_sentence_trimmed max_chars st s Hch Hbuf Hs1) as [H1 H2].
    apply IH; assumption.
Qed.

Lemma sentences_start_clean (p : str) :
  Forall starts_clean (re_split_sentences (strip p)).
Proof using terminator_not_space.
  pose proof (re_split_sentences_clean p) as H.
  rewrite List.Forall_forall in *. intros s Hs. rewrite <- (H s Hs).
  apply strip_starts_clean.
Qed.

Lemma add_paragraph_trimmed max_chars (st : list str * str) (p0 : str) :
  Forall trimmed (fst st) -> starts_clean (snd st) ->
  Forall trimmed (fst (add_paragraph max_chars st p0))
  /\ starts_clean (snd (add_paragraph max_chars st p0)).
Proof using terminator_not_space.
  destruct st as [chunks current]. simpl. intros Hch Hcur. unfold add_paragraph.
  destruct (truthy (strip p0)) eqn:Et; simpl; [|split; assumption].
  pose proof (flush_trimmed chunks current Hch Hcur) as Hflush.
  destruct (len current + len (strip p0) + 1 >? max_chars)%Z.
  - destruct (len (strip p0) >? max_chars)%Z.
    + pose proof (sentence_loop_trimmed max_chars (re_split_sentences (strip p0))
                    (flush chunks current, []) (sentences_start_clean p0)
                    Hflush I) as [H1 H2].
      destruct (fold_left _ _ _) as [chunks' buf]. simpl in *.
      split; [apply flush_trimmed; assumption | exact I].
    + simpl. split; [exact Hflush | apply strip_starts_clean].
  - simpl. split; [exact Hch|].
    destruct current as [|c current]; [apply strip_starts_clean | exact Hcur].
Qed.

Lemma paragraph_loop_trimmed max_chars : forall paragraphs st,
  Forall trimmed (fst st) -> starts_clean (snd st) ->
  Forall trimmed (fst (fold_left (add_paragraph max_chars) paragraphs st))
  /\ starts_clean (snd (fold_left (add_paragraph max_chars) paragraphs st)).
Proof using terminator_not_space.
  induction paragraphs as [|p paragraphs IH]; intros st Hch Hcur; simpl.
  - split; assumption.
  - destruct (add_paragraph_trimmed max_chars st p Hch Hcur) as [H1 H2].
    apply IH; assumption.
Qed.

(** X1. Every chunk of [chunk_text] is a non-empty string that neither
    starts nor ends with a white-space character. *)
Theorem chunk_text_chunks_trimmed (text : str) (max_chars : Z) (c : str) :
  In c (chunk_text text max_chars) ->
  c <> [] /\ starts_clean c /\ starts_clean (rev c).
Proof using terminator_not_space.
  unfold chunk_text. destruct (truthy text); simpl; [|intros []].
  pose proof (paragraph_loop_trimmed max_chars (re_split_newlines text) ([], [])
                (List.Forall_nil _) I) as [H1 H2].
  destruct (fold_left _ _ _) as [chunks current]. simpl in *.
  pose proof (flush_trimmed chunks current H1 H2) as Hall.
  rewrite List.Forall_forall in Hall. intros Hin. exact (Hall c Hin).
Qed.

Lemma lstrip_blank (s : str) :
  Forall (fun c => isspace c = true) s -> lstrip s = [].
Proof.
  induction 1 as [|c s Hc Hs IH]; simpl; [reflexivity|]. rewrite Hc. exact IH.
Qed.

Lemma strip_blank (s : str) :
  Forall (fun c => isspace c = true) s -> strip s = [].
Proof. intros H. unfold strip. rewrite (lstrip_blank s H). reflexivity. Qed.

Lemma split_newlines_from_chars (P : char -> Prop) (s : str) : forall insep cur,
  Forall P cur -> Forall P s ->
  Forall (Forall P) (split_newlines_from insep cur s).
Proof.
  induction s as [|c s IH]; intros insep cur Hcur Hs; simpl.
  - constructor; [|constructor]. apply Forall_rev. exact Hcur.
  - inversion Hs as [|? ? Hc Hs']; subst.
    destruct (c =? NL)%N.
    + destruct insep; [apply IH; [constructor | exact Hs']|].
      constructor; [apply Forall_rev; exact Hcur|].
      apply IH; [constructor | exact Hs'].
    + apply IH; [constructor; assumption | exact Hs'].
Qed.

Lemma paragraph_loop_blank max_chars : forall paragraphs st,
  Forall (Forall (fun c => isspace c = true)) paragraphs ->
  fold_left (add_paragraph max_chars) paragraphs st = st.
Proof.
  induction paragraphs as [|p paragraphs IH]; intros st Hall; simpl;
    [reflexivity|].
  inversion Hall as [|? ? Hp Hrest]; subst.
  assert (Hskip : add_paragraph max_chars st p = st).
  { destruct st as [chunks current]. unfold add_paragraph.
    rewrite (strip_blank p Hp). reflexivity. }
  rewrite Hskip. apply IH, Hrest.
Qed.

(** X2. A text made of white space only gives no chunk at all. *)
Theorem chunk_text_blank (text : str) (max_chars : Z) :
  Forall (fun c => isspace c = true) text ->
  chunk_text text max_chars = [].
Proof.
  intros Hblank. unfold chunk_text. destruct (truthy text); [|reflexivity].
  simpl. rewrite paragraph_loop_blank; [reflexivity|].
  apply split_newlines_from_chars; [constructor | exact Hblank].
Qed.

Lemma split_newlines_from_budget (s : str) : forall insep cur,
  (budget (split_newlines_from insep cur s) <= len cur + len s + 1)%Z.
Proof.
  induction s as [|c s IH]; intros insep cur; simpl.
  - unfold len. rewrite length_rev. simpl. lia.
  - rewrite len_cons. pose proof (len_nonneg cur).
    destruct (c =? NL)%N.
    + specialize (IH true []). change (len (@nil N)) with 0%Z in IH.
      destruct insep; simpl; [lia|].
      unfold len at 1. rewrite length_rev. fold (len cur). lia.
    + specialize (IH false (c :: cur)). rewrite len_cons in IH. lia.
Qed.

Lemma budget_nonneg (paragraphs : list str) : (0 <= budget paragraphs)%Z.
Proof.
  induction paragraphs as [|p paragraphs IH]; simpl; [lia|].
  pose proof (len_nonneg p). lia.
Qed.

Lemma add_paragraph_fits max_chars (todo : list str) (st : list str * str) (p0 : str) :
  fits max_chars (p0 :: todo) st ->
  fits max_chars todo (add_paragraph max_chars st p0).
Proof.
  destruct st as [chunks current]. unfold fits. simpl.
  intros [-> Hcur]. unfold add_paragraph.
  pose proof (strip_len p0) as Hlen. pose proof (budget_nonneg todo) as Hb.
  pose proof (len_nonneg p0) as Hp0.
  destruct (strip p0) as [|c p] eqn:Ep; simpl truthy; cbv iota; simpl negb; cbv iota.
  - simpl. split; [reflexivity|].
    destruct Hcur as [[-> H]|[Hne H]]; [left | right]; split; auto; lia.
  - rewrite <- Ep in *.
    assert (Hpne : strip p0 <> []) by (rewrite Ep; discriminate).
    destruct Hcur as [[-> H]|[Hne H]].
    + change (len (@nil N)) with 0%Z.
      destruct (Z.gtb_spec (0 + len (strip p0) + 1) max_chars) as [E1|E1].
      * destruct (Z.gtb_spec (len (strip p0)) max_chars) as [E2|E2]; [lia|].
        simpl. split; [reflexivity|]. right. split; [exact Hpne | lia].
      * simpl. split; [reflexivity|]. right. split; [exact Hpne | lia].
    + destruct (Z.gtb_spec (len current + len (strip p0) + 1) max_chars) as [E1|E1];
        [lia|].
      simpl. split; [reflexivity|]. right.
      destruct current as [|d current]; [contradiction|]. simpl truthy. cbv iota.
      split; [discriminate|]. rewrite len_app, (len_cons NL). lia.
Qed.

Lemma paragraph_loop_fits max_chars : forall todo st,
  fits max_chars todo st ->
  fst (fold_left (add_paragraph max_chars) todo st) = [].
Proof.
  induction todo as [|p todo IH]; intros st Hfit; simpl.
  - destruct Hfit as [H _]. exact H.
  - apply IH, add_paragraph_fits, Hfit.
Qed.

(** X3. A text of at most [max_chars] characters is never split: it gives
    one chunk, or none when it is blank. *)
Theorem chunk_text_short_text (text : str) (max_chars : Z) :
  (len text <= max_chars)%Z ->
  (length (chunk_text text max_chars) <= 1)%nat.
Proof.
  intros Hlen. unfold chunk_text. destruct (truthy text); simpl; [|lia].
  assert (Hfit : fits max_chars (re_split_newlines text) ([], [])).
  { split; [reflexivity|]. left. split; [reflexivity|].
    pose proof (split_newlines_from_budget text false []) as H.
    change (len (@nil N)) with 0%Z in H. unfold re_split_newlines. lia. }
  pose proof (paragraph_loop_fits max_chars _ _ Hfit) as Hchunks.
  destruct (fold_left _ _ _) as [chunks current]. simpl in Hchunks. subst chunks.
  unfold flush. destruct (truthy current); simpl; lia.
Qed.

(** ** Further properties of the retriever *)

Lemma enumerate_from_In {A} (xs : list A) : forall k i x,
  In (i, x) (enumerate_from k xs) ->
  (k <= i)%Z /\ nth_error xs (Z.to_nat (i - k)) = Some x.
Proof.
  induction xs as [|y xs IH]; intros k i x Hin; [destruct Hin|].
  simpl in Hin. destruct Hin as [Heq|Hin].
  - inversion Heq; subst. split; [lia|]. rewrite Z.sub_diag. reflexivity.
  - apply IH in Hin as [Hle Hnth]. split; [lia|].
    replace (Z.to_nat (i - k)) with (S (Z.to_nat (i - (k + 1)))) by lia.
    exact Hnth.
Qed.

(** X4. Every match the retriever returns names a document of the corpus
    and a position in it: [index] is not negative and the chunk at that
    position in the document is the chunk of the match. *)
Theorem simple_retrieve_provenance
    (ss : session_state) (query : str) (top_k : Z) (m : Match) :
  In m (simple_retrieve ss query top_k) ->
  exists uf, In uf (uploaded_files ss)
    /\ file m = name uf
    /\ (0 <= index m)%Z
    /\ nth_error (chunks uf) (Z.to_nat (index m)) = Some (chunk m).
Proof.
  intros Hm. apply simple_retrieve_In in Hm. unfold encounter_order in Hm.
  apply in_flat_map in Hm as (uf & Huf & Hm).
  apply in_flat_map in Hm as ([i c] & Hic & Hm).
  unfold candidate in Hm. simpl in Hm.
  destruct (0 <? overlap_score query c)%Z; [|destruct Hm].
  destruct Hm as [<-|[]]. simpl.
  apply enumerate_from_In in Hic as [Hle Hnth]. rewrite Z.sub_0_r in Hnth.
  exists uf. repeat split; assumption.
Qed.

(** X5. Asking for fewer matches gives the first ones of a longer answer:
    for [0 <= k <= k'], the result for [k] is the first [k] matches of the
    result for [k']. *)
Theorem simple_retrieve_top_k_prefix
    (ss : session_state) (query : str) (k k' : Z) :
  (0 <= k <= k')%Z ->
  simple_retrieve ss query k = firstn (Z.to_nat k) (simple_retrieve ss query k').
Proof.
  intros [Hk Hkk']. rewrite !simple_retrieve_unfold. unfold slice_to.
  destruct (Z.ltb_spec k 0) as [Hlt|_]; [lia|].
  destruct (Z.ltb_spec k' 0) as [Hlt|_]; [lia|].
  rewrite firstn_firstn. f_equal. lia.
Qed.

Lemma insert_desc_perm {A} (key : A -> Z) (x : A) (l : list A) :
  Permutation (x :: l) (insert_desc key x l).
Proof.
  induction l as [|y l IH]; simpl; [reflexivity|].
  destruct (key x <? key y)%Z; [|reflexivity].
  rewrite perm_swap. apply perm_skip, IH.
Qed.

Lemma sort_reverse_perm {A} (key : A -> Z) (l : list A) :
  Permutation l (sort_reverse key l).
Proof.
  induction l as [|x l IH]; simpl; [reflexivity|].
  rewrite <- insert_desc_perm. apply perm_skip, IH.
Qed.

Lemma descending_app {A} (key : A -> Z) (a b : list A) :
  descending key (a ++ b) ->
  forall x y, In x a -> In y b -> (key y <= key x)%Z.
Proof.
  unfold descending. induction a as [|z a IH]; intros Hs x y Hx Hy;
    [destruct Hx|].
  simpl in Hs. inversion Hs as [|? ? Hs' Hz]; subst.
  destruct Hx as [->|Hx]; [|exact (IH Hs' x y Hx Hy)].
  rewrite List.Forall_forall in Hz. apply Hz, in_or_app. right. exact Hy.
Qed.

(** X6. The retriever keeps the best matches: the matches of the traversal
    are those it returns together with those it leaves out, none lost and
    none repeated, and no match left out has a higher score than a match
    returned. *)
Theorem simple_retrieve_keeps_best
    (ss : session_state) (query : str) (top_k : Z) :
  exists rest,
    Permutation (encounter_order ss query) (simple_retrieve ss query top_k ++ rest)
    /\ forall m r, In m (simple_retrieve ss query top_k) -> In r rest ->
                   (score r <= score m)%Z.
Proof.
  rewrite simple_retrieve_unfold.
  destruct (slice_to_firstn top_k (sort_reverse score (encounter_order ss query)))
    as [n ->].
  exists (skipn n (sort_reverse score (encounter_order ss query))). split.
  - rewrite firstn_skipn. apply sort_reverse_perm.
  - apply (descending_app score). rewrite firstn_skipn.
    apply sort_reverse_descending.
Qed.

Lemma list_sum_perm (l l' : list nat) :
  Permutation l l' -> list_sum l = list_sum l'.
Proof.
  induction 1 as [|x l l' _ IH|x y l|l l' l'' _ IH1 _ IH2]; simpl;
    [reflexivity | rewrite IH; reflexivity | lia | congruence].
Qed.

Lemma overlap_score_perm (query query' chunk : str) :
  Permutation (tokens_of query) (tokens_of query') ->
  overlap_score query chunk = overlap_score query' chunk.
Proof.
  intros Hperm. unfold overlap_score. f_equal.
  apply list_sum_perm, Permutation_map, Hperm.
Qed.

(** X7. The order of the words of a query does not matter: two queries
    whose token lists are permutations of each other get the same result. *)
Theorem simple_retrieve_query_order
    (ss : session_state) (query query' : str) (top_k : Z) :
  Permutation (tokens_of query) (tokens_of query') ->
  simple_retrieve ss query top_k = simple_retrieve ss query' top_k.
Proof.
  intros Hperm. rewrite !simple_retrieve_unfold. do 2 f_equal.
  unfold encounter_order. apply flat_map_ext. intros uf.
  apply flat_map_ext. intros ic. unfold candidate.
  rewrite (overlap_score_perm query query' (snd ic) Hperm). reflexivity.
Qed.

(** ** Further properties of the answer composer *)

Lemma unmarked_app (a b : str) : unmarked (a ++ b) = unmarked a ++ unmarked b.
Proof. apply List.filter_app. Qed.

Lemma unmarked_marked (w : str) : unmarked (marked w) = unmarked w.
Proof.
  unfold marked. rewrite !unmarked_app. simpl. apply app_nil_r.
Qed.

Lemma unmarked_repl (qtokens : gset (list N)) (w : str) :
  unmarked (repl qtokens w) = unmarked w.
Proof.
  unfold repl. destruct (bool_decide (lower w ∈ qtokens)); [|reflexivity].
  apply unmarked_marked.
Qed.

Lemma unmarked_segments (qtokens : gset (list N)) (segs : list segment) :
  unmarked (concat (map (render (repl qtokens)) segs))
  = unmarked (concat (map (render (fun w => w)) segs)).
Proof.
  induction segs as [|seg segs IH]; simpl; [reflexivity|].
  rewrite !unmarked_app, IH. destruct seg; simpl; [|reflexivity].
  rewrite unmarked_repl. reflexivity.
Qed.

(** X8. Highlighting only adds markers: without the backticks, the
    highlighted snippet and the snippet are the same string, whatever the
    query tokens. *)
Theorem highlight_only_adds_markers (qtokens : gset (list N)) (snippet : str) :
  unmarked (highlight qtokens snippet) = unmarked snippet.
Proof.
  unfold highlight, re_sub_word.
  rewrite sub_word_from_segments, unmarked_segments.
  rewrite (segments_from_text snippet []). reflexivity.
Qed.

(** X9. A snippet none of whose word tokens is, in lowercase, a token of the
    query comes out of [highlight] unchanged. *)
Theorem highlight_no_match_unchanged (query snippet : str) :
  (forall w, In w (re_findall_word snippet) -> ~ In (lower w) (tokens_of query)) ->
  highlight (list_to_set (tokens_of query)) snippet = snippet.
Proof.
  intros Hnone. unfold highlight, re_sub_word. rewrite sub_word_from_segments.
  assert (Hmap : map (render (repl (list_to_set (tokens_of query))))
                   (segments_from [] snippet)
                 = map (render (fun w => w)) (segments_from [] snippet)).
  { apply map_ext_in. intros [w|c] Hseg; [|reflexivity]. simpl.
    apply (repl_spec query w), Hnone.
    unfold re_findall_word. rewrite <- word_segments_from.
    unfold word_segments. apply in_flat_map. exists (Word w).
    split; [exact Hseg | left; reflexivity]. }
  rewrite Hmap. apply (segments_from_text snippet []).
Qed.

(** ** Further properties of the session *)


Lemma run_script_spec (uploaded : list UploadedFile.t) (prompt : option str)
    (st : session_state) :
  run_script uploaded prompt st
  = Ok (let st1 := if truthy uploaded
                   then {| messages := messages st;
                           uploaded_files := map document_of uploaded |}
                   else st in
        match prompt with Some q => on_prompt q st1 | None => st1 end).
Proof. unfold run_script. rewrite on_upload_spec. reflexivity. Qed.


(** X12. In every state the session reaches, each document of the corpus is
    the document of an uploaded file, and its chunks are the chunks of its
    stored text at the default size. *)
Theorem reachable_corpus_coherent (st : session_state) :
  reachable st ->
  Forall (fun uf => (exists f, uf = document_of f)
                    /\ chunks uf = chunk_text (text uf) default_max_chars)
    (uploaded_files st).
Proof.
  induction 1 as [|st uploaded prompt st' Hst IH Hrun]; [constructor|].
  rewrite run_script_spec in Hrun. inversion Hrun; subst. clear Hrun.
  assert (Hup : Forall (fun uf => (exists f, uf = document_of f)
                                  /\ chunks uf = chunk_text (text uf) default_max_chars)
                  (uploaded_files
                     (if truthy uploaded
                      then {| messages := messages st;
                              uploaded_files := map document_of uploaded |}
                      else st))).
  { destruct (truthy uploaded); [|exact IH]. simpl.
    apply List.Forall_forall. intros uf Huf.
    apply in_map_iff in Huf as (f & <- & _). split; [eauto | reflexivity]. }
  destruct prompt; exact Hup.
Qed.


(** X14. Running the uploader handler again with the same files changes
    nothing: the state it produced is the state it produces from it. *)
Theorem on_upload_rerun (uploaded : list UploadedFile.t) (st st1 : session_state) :
  on_upload uploaded st = Ok st1 -> on_upload uploaded st1 = Ok st1.
Proof.
  rewrite !on_upload_spec. intros H. inversion H; subst. clear H.
  destruct (truthy uploaded); reflexivity.
Qed.

(** X15. [index_uploaded_files] itself never raises and appends: it keeps
    the documents already in the corpus and adds one document per file, in
    the order of the files, under the file's name even when the name is
    already there; the transcript is untouched. *)
Theorem index_uploaded_files_appends
    (fs : list UploadedFile.t) (st : session_state) :
  exists st',
    index_uploaded_files fs st = Ok st'
    /\ uploaded_files st' = uploaded_files st ++ map document_of fs
    /\ map name (uploaded_files st')
       = map name (uploaded_files st) ++ map UploadedFile.name fs
    /\ messages st' = messages st.
Proof.
  rewrite index_uploaded_files_spec. eexists. split; [reflexivity|]. simpl.
  split; [reflexivity|]. split; [|reflexivity].
  rewrite map_app, map_map. reflexivity.
Qed.

Lemma utf8_decode_ascii (bs : list N) :
  Forall (fun b => (b < 128)%N) bs -> utf8_decode bs = Ok bs.
Proof.
  induction 1 as [|b bs Hb Hbs IH]; [reflexivity|].
  cbn [utf8_decode]. destruct (N.ltb_spec b 128) as [_|Hge]; [|lia].
  rewrite IH. reflexivity.
Qed.

(** X16. A plain-text file (a name ending in neither [.pdf] nor [.docx])
    with content, all of whose bytes are ASCII, is read as it is: one
    character per byte, with the byte's code. *)
Theorem parse_uploaded_file_ascii_text (f : UploadedFile.t) :
  endswith (lower (UploadedFile.name f)) (s2l ".pdf") = false ->
  endswith (lower (UploadedFile.name f)) (s2l ".docx") = false ->
  UploadedFile.read f <> [] ->
  Forall (fun b => (Byte.to_N b < 128)%N) (UploadedFile.read f) ->
  parse_uploaded_file f = Ok (map Byte.to_N (UploadedFile.read f)).
Proof.
  intros Hpdf Hdocx Hne Hascii. unfold parse_uploaded_file.
  rewrite Hpdf, Hdocx. unfold decode_utf8.
  rewrite utf8_decode_ascii by (apply Forall_map; exact Hascii).
  simpl. destruct (UploadedFile.read f); [contradiction | reflexivity].
Qed.

(** ** PDF files without text *)

Lemma page_texts_blank (pages : list (result (option str))) :
  Forall page_without_text pages ->
  mapM (fun page => t ← page; Ok (default [] t)) pages
  = Ok (repeat [] (length pages)).
Proof.
  induction 1 as [|pg pages Hpg Hpages IH]; [reflexivity|].
  simpl. rewrite IH. destruct Hpg as [->| ->]; reflexivity.
Qed.

Lemma join_blank (n : nat) : join [NL] (repeat [] (S n)) = repeat NL n.
Proof.
  induction n as [|n IH]; [reflexivity|].
  change (repeat [] (S (S n))) with (@nil N :: repeat [] (S n)).
  change (join [NL] ([] :: repeat [] (S n)))
    with ([] ++ [NL] ++ join [NL] (repeat [] (S n))).
  rewrite IH. reflexivity.
Qed.

(** X17. A PDF whose pages all come out without text is stored by the number
    of its pages. With at most one page the extracted text is empty and the
    rendering of the raw bytes takes its place; with two pages or more the
    text is the newlines that join the empty pages, which is not empty, so
    there is no fallback, and that text has no chunk: the file is indexed
    but no query can match it. *)
Theorem parse_pdf_without_text (f : UploadedFile.t)
    (reader : bytes -> result (list (result (option str))))
    (pages : list (result (option str))) :
  endswith (lower (UploadedFile.name f)) (s2l ".pdf") = true ->
  PyPDF2 = Some reader ->
  reader (UploadedFile.read f) = Ok pages ->
  Forall page_without_text pages ->
  ((length pages <= 1)%nat ->
     parse_uploaded_file f = Ok (bytes_repr (UploadedFile.read f)))
  /\ ((2 <= length pages)%nat ->
        parse_uploaded_file f = Ok (repeat NL (length pages - 1))
        /\ chunk_text (repeat NL (length pages - 1)) default_max_chars = []).
Proof using isspace_NL.
  intros Hpdf Hbackend Hread Hblank.
  unfold parse_uploaded_file, extract_text_from_pdf.
  rewrite Hpdf, Hbackend, Hread. simpl.
  rewrite (page_texts_blank pages Hblank). simpl.
  destruct pages as [|p1 [|p2 pages]]; simpl length.
  - split; [reflexivity | lia].
  - split; [reflexivity | lia].
  - split; [lia|]. intros _.
    change (repeat [] (S (S (length pages))))
      with (repeat (@nil N) (S (S (length pages)))).
    rewrite join_blank.
    replace (S (S (length pages)) - 1)%nat with (S (length pages)) by lia.
    split; [reflexivity|].
    unfold chunk_text. simpl truthy. cbv iota. simpl negb. cbv iota.
    rewrite paragraph_loop_blank; [reflexivity|].
    apply split_newlines_from_chars; [constructor|].
    apply List.Forall_forall. intros c Hc. apply repeat_spec in Hc. subst c.
    exact isspace_NL.
Qed.

(** ** Matches share a token with the query *)

Lemma occurrences_pos (t : str) (words : list str) :
  (0 < occurrences t words)%nat <-> In t words.
Proof.
  unfold occurrences. induction words as [|w words IH]; simpl.
  - split; [lia | intros []].
  - destruct (bool_decide_reflect (w = t)) as [->|Hne]; simpl.
    + split; [intros _; left; reflexivity | lia].
    + rewrite IH. split; [intros H; right; exact H|].
      intros [Heq|H]; [contradiction | exact H].
Qed.

Lemma list_sum_pos {A} (f : A -> nat) (l : list A) :
  (0 < list_sum (map f l))%nat <-> exists t, In t l /\ (0 < f t)%nat.
Proof.
  induction l as [|x l IH]; simpl.
  - split; [lia | intros (t & [] & _)].
  - split.
    + intros H. destruct (Nat.eq_dec (f x) 0) as [Hz|Hnz].
      * destruct (proj1 IH ltac:(lia)) as (t & Ht & Hpos). eauto.
      * exists x. split; [left; reflexivity | lia].
    + intros (t & [->|Ht] & Hpos); [lia|].
      pose proof (proj2 IH (ex_intro _ t (conj Ht Hpos))). lia.
Qed.

Lemma overlap_score_pos (query chunk : str) :
  (0 < overlap_score query chunk)%Z
  <-> exists t, In t (tokens_of query) /\ In t (tokens_of chunk).
Proof.
  unfold overlap_score. rewrite <- Nat2Z.inj_0, <- Nat2Z.inj_lt, list_sum_pos.
  split; intros (t & Ht & H); exists t; (split; [exact Ht|]);
    apply occurrences_pos; exact H.
Qed.

(** X18. A chunk scores above zero exactly when one of its tokens is a token
    of the query, both taken in lowercase; so every match the retriever
    returns has a token in common with the query. *)
Theorem simple_retrieve_shares_token
    (ss : session_state) (query : str) (top_k : Z) :
  (forall chunk,
     (0 < overlap_score query chunk)%Z
     <-> exists t, In t (tokens_of query) /\ In t (tokens_of chunk))
  /\ (forall m, In m (simple_retrieve ss query top_k) ->
        exists t, In t (tokens_of query) /\ In t (tokens_of (chunk m))).
Proof.
  split; [intros c; apply overlap_score_pos|].
  intros m Hm. apply simple_retrieve_In, encounter_order_In in Hm.
  destruct Hm as (Hpos & Hscore & _). rewrite Hscore in Hpos.
  apply overlap_score_pos, Hpos.
Qed.

End Pipeline.

(** ** The ASCII tables meet the assumptions *)

Lemma ascii_terminator_not_space (c : char) :
  is_terminator c = true -> ascii_isspace c = false.
Proof.
  unfold is_terminator.
  destruct (N.eqb_spec c 46) as [->|_]; [reflexivity|].
  destruct (N.eqb_spec c 33) as [->|_]; [reflexivity|].
  destruct (N.eqb_spec c 63) as [->|_]; [reflexivity|discriminate].
Qed.

Lemma ascii_lower_char_nonword (c : char) :
  ascii_isword c = false -> ascii_isword (ascii_lower_char c) = false.
Proof.
  unfold ascii_lower_char. intros H.
  destruct ((65 <=? c) && (c <=? 90))%N eqn:E; [|exact H].
  unfold ascii_isword in H. rewrite E, orb_true_r in H. discriminate.
Qed.

Lemma ascii_lower_keeps_nonword (s : str) :
  Forall (fun c => ascii_isword c = false) s ->
  Forall (fun c => ascii_isword c = false) (ascii_lower s).
Proof.
  unfold ascii_lower. induction 1 as [|c s Hc Hs IH]; simpl; constructor;
    [apply ascii_lower_char_nonword, Hc | exact IH].
Qed.

(** ** Examples *)

Example chunk_text_two_paragraphs :
  chunk_text ascii_isspace (s2l "ab cd. ef" ++ [NL; NL] ++ s2l " gh ") 1200
  = [s2l "ab cd. ef" ++ [NL] ++ s2l "gh"].
Proof. vm_compute. reflexivity. Qed.

Example chunk_text_sentences :
  chunk_text ascii_isspace (s2l "ab cd. ef!  gh") 7
  = [s2l "ab cd."; s2l "ef! gh"].
Proof. vm_compute. reflexivity. Qed.

Example chunk_text_long_sentence :
  chunk_text ascii_isspace (s2l "abcdefghij. xy") 5
  = [s2l "abcdefghij."; s2l "xy"].
Proof. vm_compute. reflexivity. Qed.

Example upload_two_cats :
  on_upload ascii_isspace ascii_lower None None [a_txt; b_txt] initial_state
  = Ok two_cats.
Proof. vm_compute. reflexivity. Qed.

Example parse_latin1 :
  parse_uploaded_file ascii_lower None None
    {| UploadedFile.name := s2l "a.txt";
       UploadedFile.read := [Byte.xff; Byte.x41] |}
  = Ok [255%N; 65%N].
Proof. vm_compute. reflexivity. Qed.

Example parse_pdf_without_backend :
  parse_uploaded_file ascii_lower None None
    {| UploadedFile.name := s2l "Scan.PDF"; UploadedFile.read := b2l "%PDF" |}
  = Ok (s2l "b'%PDF'").
Proof. vm_compute. reflexivity. Qed.

Example ranking_order :
  map (fun m => (file m, index m, score m))
    (simple_retrieve ascii_isword ascii_lower ranking (s2l "cat") 3)
  = [(s2l "one.txt", 1%Z, 5%Z); (s2l "one.txt", 0%Z, 3%Z); (s2l "two.txt", 1%Z, 3%Z)].
Proof. vm_compute. reflexivity. Qed.

Example fox_end_to_end :
  exists st,
    on_upload ascii_isspace ascii_lower None None [fox_txt] initial_state = Ok st
    /\ map chunks (uploaded_files st) = [[s2l "The quick brown fox. The fox jumps."]]
    /\ map (fun m => (chunk m, score m))
         (simple_retrieve ascii_isword ascii_lower st (s2l "fox") 5)
       = [(s2l "The quick brown fox. The fox jumps.", 2%Z)]
    /\ highlight ascii_isword ascii_lower
         (list_to_set (tokens_of ascii_isword ascii_lower (s2l "fox")))
         (s2l "The quick brown fox. The fox jumps.")
       = s2l "The quick brown `fox`. The `fox` jumps.".
Proof. eexists. split; [vm_compute; reflexivity|]. vm_compute. auto. Qed.

(** ** Scoring *)

(** C1. The score the retriever computes for a chunk is the sum, over the
    tokens of the query with repeats kept, of the number of occurrences of
    the token among the tokens of the chunk; and this is the score of every
    match it returns, for a chunk of the corpus. The tokens of a string are
    the maximal runs of word characters of its lowercase form: a run of word
    characters between non-word characters (or the ends) is the next token,
    and a string without word characters has none. For the chunk
    [cat cat dog], the query [cat] scores 2 and the query [cat cat] scores
    4. *)
Theorem simple_retrieve_score_is_overlap :
  (forall isword lower query chunk,
     chunk_score (re_findall_word isword (lower query))
                 (re_findall_word isword (lower chunk))
     = overlap_score isword lower query chunk)
  /\ (forall isword lower ss query top_k m,
        In m (simple_retrieve isword lower ss query top_k) ->
        score m = overlap_score isword lower query (chunk m)
        /\ In (chunk m) (all_chunks ss))
  /\ (forall isword gap w rest,
        Forall (fun c => isword c = false) gap ->
        Forall (fun c => isword c = true) w -> w <> [] ->
        match rest with [] => True | c :: _ => isword c = false end ->
        re_findall_word isword (gap ++ w ++ rest) = w :: re_findall_word isword rest)
  /\ (forall isword gap,
        Forall (fun c => isword c = false) gap -> re_findall_word isword gap = [])
  /\ overlap_score ascii_isword ascii_lower (s2l "cat") (s2l "cat cat dog") = 2%Z
  /\ overlap_score ascii_isword ascii_lower (s2l "cat cat") (s2l "cat cat dog") = 4%Z
  /\ map score (simple_retrieve ascii_isword ascii_lower pets (s2l "cat") 3) = [2%Z]
  /\ map score (simple_retrieve ascii_isword ascii_lower pets (s2l "cat cat") 3) = [4%Z].
Proof.
  split; [exact chunk_score_overlap|].
  split; [exact simple_retrieve_scores|].
  split; [exact re_findall_word_maximal|].
  split; [exact re_findall_word_no_word|].
  vm_compute. auto.
Qed.

(** ** Instances *)

Lemma chunk_text_length_bound_witness :
  (forall c, is_terminator c = true -> ascii_isspace c = false)
  /\ In (s2l "abcdefghij.") (chunk_text ascii_isspace (s2l "abcdefghij. xy") 5)
  /\ ((len (s2l "abcdefghij.") <= 5)%Z
      \/ exists p, In p (re_split_newlines (s2l "abcdefghij. xy"))
           /\ (5 < len (strip ascii_isspace p))%Z
           /\ In (s2l "abcdefghij.") (re_split_sentences ascii_isspace (strip ascii_isspace p))
           /\ (5 < len (s2l "abcdefghij."))%Z).
Proof.
  split; [exact ascii_terminator_not_space|].
  split; [vm_compute; left; reflexivity|].
  apply (chunk_text_length_bound ascii_isspace ascii_terminator_not_space
           (s2l "abcdefghij. xy") 5 (s2l "abcdefghij.")).
  vm_compute. left. reflexivity.
Defined.

Lemma chunk_text_lossless_witness :
  ascii_isspace NL = true /\ ascii_isspace SP = true
  /\ nonspace ascii_isspace
       (concat (chunk_text ascii_isspace (s2l "ab cd. ef!  gh" ++ [NL; NL] ++ s2l " ij ") 7))
     = nonspace ascii_isspace (s2l "ab cd. ef!  gh" ++ [NL; NL] ++ s2l " ij ").
Proof.
  split; [reflexivity|]. split; [reflexivity|].
  apply (chunk_text_lossless ascii_isspace eq_refl eq_refl).
Defined.

Lemma simple_retrieve_top_k_witness :
  (0 <= 1)%Z
  /\ (len (simple_retrieve ascii_isword ascii_lower two_cats (s2l "cat") 1) <= 1)%Z
  /\ len (simple_retrieve ascii_isword ascii_lower two_cats (s2l "cat") 1)
     = Z.min 1 (len (positive_chunks ascii_isword ascii_lower two_cats (s2l "cat")))
  /\ forall m, In m (simple_retrieve ascii_isword ascii_lower two_cats (s2l "cat") 1) ->
               (0 < score m)%Z.
Proof.
  split; [lia|].
  apply (simple_retrieve_top_k ascii_isword ascii_lower two_cats (s2l "cat") 1).
  lia.
Defined.

(** With a negative top-K the slice drops matches from the end instead: of
    the two matches for [cat] in [two_cats], [top_k = -1] returns one. *)
Lemma simple_retrieve_negative_top_k :
  ~ ((len (simple_retrieve ascii_isword ascii_lower two_cats (s2l "cat") (-1)) <= -1)%Z
     /\ len (simple_retrieve ascii_isword ascii_lower two_cats (s2l "cat") (-1))
        = Z.min (-1) (len (positive_chunks ascii_isword ascii_lower two_cats (s2l "cat")))).
Proof. intros [H _]. vm_compute in H. apply H. reflexivity. Qed.

Lemma on_upload_replaces_corpus_witness :
  [b_txt] <> []
  /\ exists st1 st2,
       on_upload ascii_isspace ascii_lower None None [a_txt] initial_state = Ok st1
       /\ on_upload ascii_isspace ascii_lower None None [b_txt] st1 = Ok st2
       /\ uploaded_files st2 = map (document_of ascii_isspace ascii_lower None None) [b_txt]
       /\ map name (uploaded_files st2) = map UploadedFile.name [b_txt]
       /\ messages st2 = messages initial_state.
Proof.
  split; [discriminate|].
  apply (on_upload_replaces_corpus ascii_isspace ascii_lower None None
           initial_state [a_txt] [b_txt]).
  discriminate.
Defined.

(** When the uploader holds no file, the handler keeps the corpus: after
    [a.txt], a run with an empty batch leaves the document of [a.txt]. *)
Lemma on_upload_empty_batch_keeps_corpus :
  ~ (exists st1 st2,
       on_upload ascii_isspace ascii_lower None None [a_txt] initial_state = Ok st1
       /\ on_upload ascii_isspace ascii_lower None None [] st1 = Ok st2
       /\ uploaded_files st2 = map (document_of ascii_isspace ascii_lower None None) []).
Proof.
  intros (st1 & st2 & H1 & H2 & H3).
  vm_compute in H1. inversion H1; subst. clear H1.
  vm_compute in H2. inversion H2; subst. clear H2.
  discriminate H3.
Qed.

Lemma simple_retrieve_no_word_character_witness :
  Forall (fun c => ascii_isword c = false) (s2l "   ")
  /\ simple_retrieve_traced ascii_isword ascii_lower two_cats (s2l "   ") 3 = ([], [])
  /\ simple_retrieve ascii_isword ascii_lower two_cats (s2l "   ") 3 = [].
Proof.
  split; [repeat constructor|].
  apply (simple_retrieve_no_word_character ascii_isword ascii_lower
           ascii_lower_keeps_nonword two_cats (s2l "   ") 3).
  repeat constructor.
Defined.

Example simple_retrieve_empty_query :
  simple_retrieve_traced ascii_isword ascii_lower two_cats [] 3 = ([], []).
Proof. reflexivity. Qed.

Example simple_retrieve_scans_all :
  snd (simple_retrieve_traced ascii_isword ascii_lower two_cats (s2l "dog") 3)
  = [VisitDocument (s2l "a.txt"); ScanChunk (s2l "a.txt") 0;
     VisitDocument (s2l "b.txt"); ScanChunk (s2l "b.txt") 0].
Proof. vm_compute. reflexivity. Qed.

(** ** Instances of the further properties *)

Lemma two_cats_reachable :
  reachable ascii_isspace ascii_isword ascii_lower None None two_cats.
Proof.
  apply (reachable_run ascii_isspace ascii_isword ascii_lower None None
           initial_state [a_txt; b_txt] None two_cats).
  - apply reachable_initial.
  - vm_compute. reflexivity.
Qed.

Lemma chunk_text_chunks_trimmed_witness :
  In (s2l "ab cd. ef" ++ [NL] ++ s2l "gh")
     (chunk_text ascii_isspace (s2l " ab cd. ef " ++ [NL; NL] ++ s2l " gh ") 1200)
  /\ (s2l "ab cd. ef" ++ [NL] ++ s2l "gh" <> []
      /\ starts_clean ascii_isspace (s2l "ab cd. ef" ++ [NL] ++ s2l "gh")
      /\ starts_clean ascii_isspace (rev (s2l "ab cd. ef" ++ [NL] ++ s2l "gh"))).
Proof.
  split; [vm_compute; left; reflexivity|].
  apply (chunk_text_chunks_trimmed ascii_isspace ascii_terminator_not_space
           (s2l " ab cd. ef " ++ [NL; NL] ++ s2l " gh ") 1200).
  vm_compute. left. reflexivity.
Defined.

Lemma chunk_text_blank_witness :
  Forall (fun c => ascii_isspace c = true) (s2l "  " ++ [NL] ++ s2l " ")
  /\ chunk_text ascii_isspace (s2l "  " ++ [NL] ++ s2l " ") 1200 = [].
Proof.
  split; [repeat constructor|].
  apply (chunk_text_blank ascii_isspace (s2l "  " ++ [NL] ++ s2l " ") 1200).
  repeat constructor.
Defined.

Lemma chunk_text_short_text_witness :
  (len (s2l "ab. cd" ++ [NL] ++ s2l "ef") <= 9)%Z
  /\ (length (chunk_text ascii_isspace (s2l "ab. cd" ++ [NL] ++ s2l "ef") 9) <= 1)%nat.
Proof.
  split; [apply Z.leb_le; reflexivity|].
  apply (chunk_text_short_text ascii_isspace (s2l "ab. cd" ++ [NL] ++ s2l "ef") 9).
  apply Z.leb_le. reflexivity.
Defined.

Lemma simple_retrieve_provenance_witness :
  In {| file := s2l "b.txt"; chunk := s2l "a cat"; score := 1; index := 0 |}
     (simple_retrieve ascii_isword ascii_lower two_cats (s2l "cat") 3)
  /\ exists uf, In uf (uploaded_files two_cats)
       /\ s2l "b.txt" = name uf
       /\ (0 <= 0)%Z
       /\ nth_error (chunks uf) (Z.to_nat 0) = Some (s2l "a cat").
Proof.
  split; [vm_compute; right; left; reflexivity|].
  apply (simple_retrieve_provenance ascii_isword ascii_lower two_cats (s2l "cat") 3
           {| file := s2l "b.txt"; chunk := s2l "a cat"; score := 1; index := 0 |}).
  vm_compute. right. left. reflexivity.
Defined.

Lemma simple_retrieve_top_k_prefix_witness :
  (0 <= 1 <= 3)%Z
  /\ simple_retrieve ascii_isword ascii_lower ranking (s2l "cat") 1
     = firstn (Z.to_nat 1) (simple_retrieve ascii_isword ascii_lower ranking (s2l "cat") 3).
Proof.
  split; [lia|].
  apply (simple_retrieve_top_k_prefix ascii_isword ascii_lower ranking (s2l "cat") 1 3).
  lia.
Defined.

Lemma simple_retrieve_query_order_witness :
  Permutation (tokens_of ascii_isword ascii_lower (s2l "cat dog"))
              (tokens_of ascii_isword ascii_lower (s2l "Dog cat"))
  /\ simple_retrieve ascii_isword ascii_lower pets (s2l "cat dog") 3
     = simple_retrieve ascii_isword ascii_lower pets (s2l "Dog cat") 3.
Proof.
  split; [vm_compute; apply perm_swap|].
  apply (simple_retrieve_query_order ascii_isword ascii_lower pets
           (s2l "cat dog") (s2l "Dog cat") 3).
  vm_compute. apply perm_swap.
Defined.

Lemma highlight_no_match_unchanged_witness :
  highlight ascii_isword ascii_lower
    (list_to_set (tokens_of ascii_isword ascii_lower (s2l "dog"))) (s2l "a Cat")
  = s2l "a Cat".
Proof.
  apply (highlight_no_match_unchanged ascii_isword ascii_lower (s2l "dog") (s2l "a Cat")).
  intros w Hw Hin. vm_compute in Hw. vm_compute in Hin.
  destruct Hin as [Hin|[]].
  destruct Hw as [<-|[<-|[]]]; discriminate Hin.
Defined.



Lemma reachable_corpus_coherent_witness :
  Forall (fun uf => (exists f, uf = document_of ascii_isspace ascii_lower None None f)
                    /\ chunks uf = chunk_text ascii_isspace (text uf) default_max_chars)
    (uploaded_files two_cats).
Proof.
  apply (reachable_corpus_coherent ascii_isspace ascii_isword ascii_lower None None
           two_cats two_cats_reachable).
Defined.

Lemma on_upload_rerun_witness :
  on_upload ascii_isspace ascii_lower None None [a_txt; b_txt] initial_state = Ok two_cats
  /\ on_upload ascii_isspace ascii_lower None None [a_txt; b_txt] two_cats = Ok two_cats.
Proof.
  split; [vm_compute; reflexivity|].
  apply (on_upload_rerun ascii_isspace ascii_lower None None
           [a_txt; b_txt] initial_state two_cats).
  vm_compute. reflexivity.
Defined.

Lemma parse_uploaded_file_ascii_text_witness :
  parse_uploaded_file ascii_lower None None b_txt = Ok (s2l "a cat").
Proof.
  apply (parse_uploaded_file_ascii_text ascii_lower None None b_txt).
  - vm_compute. reflexivity.
  - vm_compute. reflexivity.
  - discriminate.
  - repeat constructor.
Defined.

Lemma parse_pdf_without_text_witness :
  parse_uploaded_file ascii_lower
    (Some (fun _ => Ok [Ok None; Ok (Some []); Ok None])) None
    {| UploadedFile.name := s2l "Scan.PDF"; UploadedFile.read := b2l "%PDF" |}
  = Ok [NL; NL]
  /\ chunk_text ascii_isspace [NL; NL] default_max_chars = [].
Proof.
  apply (parse_pdf_without_text ascii_isspace ascii_lower
           (Some (fun _ => Ok [Ok None; Ok (Some []); Ok None])) None eq_refl
           {| UploadedFile.name := s2l "Scan.PDF"; UploadedFile.read := b2l "%PDF" |}
           (fun _ => Ok [Ok None; Ok (Some []); Ok None])
           [Ok None; Ok (Some []); Ok None]).
  - vm_compute. reflexivity.
  - reflexivity.
  - reflexivity.
  - constructor; [left; reflexivity|].
    constructor; [right; reflexivity|].
    constructor; [left; reflexivity | constructor].
  - simpl. lia.
Defined.

Lemma simple_retrieve_traced_full_witness :
  re_findall_word ascii_isword (ascii_lower (s2l "dog")) <> []
  /\ snd (simple_retrieve_traced ascii_isword ascii_lower two_cats (s2l "dog") 0)
     = full_scan two_cats.
Proof.
  split; [vm_compute; discriminate|].
  apply (simple_retrieve_traced_full ascii_isword ascii_lower two_cats (s2l "dog") 0).
  vm_compute. discriminate.
Defined.
